(** * cloud-lts/process: compiled-source extraction and CVE correlation

    A shallow embedding of [extract_sources.py] and [process_cves.py].

    - A Python [str] is the list of its Unicode code points ([list N]);
      [bytes] is [list byte].
    - Library functions the two scripts call ([str.strip], [str.splitlines],
      [os.path.normpath], [bytes.decode], ...) are written out after their
      CPython 3.11 behaviour on POSIX, in [Module Py].
    - External collaborators (the debug-info tool, git, the HTTP feed, the
      current directory) are fields of an environment record; what they
      answer is an input of the model.
    - Effects (the log, the file system, the list object handed to
      [write_sources], printed lines, the queries sent to git) live in a
      world record threaded by a state-and-exception monad. *)

From stdpp Require Import base option list gmap sets sorting strings pretty.
From Stdlib.Strings Require Import Ascii Byte.

Set Default Proof Using "Type".
Local Open Scope N_scope.

(** ** Results and the state-and-exception monad *)

Inductive exn :=
  | CalledProcessError (returncode : Z)
  | UnicodeDecodeError
  | OSError
  | FileNotFoundError
  | ConnectionError
  | JSONDecodeError
  | SystemExit (code : Z).

Inductive result (A : Type) :=
  | Ok (a : A)
  | Raise (e : exn).
Arguments Ok {A} a.
Arguments Raise {A} e.

(** [except Exception] does not catch [SystemExit]. *)
Definition is_Exception (e : exn) : bool :=
  match e with SystemExit _ => false | _ => true end.

Definition M (S A : Type) : Type := S → result A * S.

Definition ret {S A} (a : A) : M S A := λ w, (Ok a, w).
Definition raise {S A} (e : exn) : M S A := λ w, (Raise e, w).
Definition bind {S A B} (m : M S A) (k : A → M S B) : M S B :=
  λ w, match m w with
       | (Ok a, w') => k a w'
       | (Raise e, w') => (Raise e, w')
       end.
Definition lift {S A} (r : result A) : M S A := λ w, (r, w).
Definition modify {S} (f : S → S) : M S unit := λ w, (Ok tt, f w).
Definition gets {S A} (f : S → A) : M S A := λ w, (Ok (f w), w).

(** [try: body except Exception as e: handler] *)
Definition try_except {S A} (body : M S A) (handler : exn → M S A) : M S A :=
  λ w, match body w with
       | (Ok a, w') => (Ok a, w')
       | (Raise e, w') => if is_Exception e then handler e w' else (Raise e, w')
       end.

Global Instance M_ret {S} : MRet (M S) := λ A, ret.
Global Instance M_bind {S} : MBind (M S) := λ A B k m, bind m k.

(** A list comprehension whose element expression can raise. *)
Fixpoint comprehension {S A B} (xs : list A) (f : A → M S B) : M S (list B) :=
  match xs with
  | [] => ret []
  | x :: xs' => y ← f x; ys ← comprehension xs' f; ret (y :: ys)
  end.

(** ** The Python library functions the scripts call *)

Module Py.

Abbreviation str := (list N).
Abbreviation bytes := (list byte).

(** An ASCII literal as a [str]. *)
Definition lit (s : string) : str :=
  N_of_ascii <$> String.list_ascii_of_string s.
Arguments lit : simpl never.

Definition LF : N := 10.
Definition CR : N := 13.
Definition SLASH : N := 47.

(** [str.isspace] on one code point. *)
Definition isspace (c : N) : bool :=
  ((9 <=? c) && (c <=? 13)) || ((28 <=? c) && (c <=? 32))
  || (c =? 133) || (c =? 160) || (c =? 5760)
  || ((8192 <=? c) && (c <=? 8202))
  || (c =? 8232) || (c =? 8233) || (c =? 8239) || (c =? 8287) || (c =? 12288).

Fixpoint lstrip (s : str) : str :=
  match s with
  | [] => []
  | c :: r => if isspace c then lstrip r else s
  end.

Definition rstrip (s : str) : str := reverse (lstrip (reverse s)).

(** [s.strip()] *)
Definition strip (s : str) : str := rstrip (lstrip s).

(** [s.startswith(p)] *)
Fixpoint startswith (s p : str) : bool :=
  match p, s with
  | [], _ => true
  | _ :: _, [] => false
  | b :: p', a :: s' => (a =? b) && startswith s' p'
  end.

(** [s.endswith(p)] *)
Definition endswith (s p : str) : bool := startswith (reverse s) (reverse p).

(** [s.removeprefix(p)] *)
Definition removeprefix (s p : str) : str :=
  if startswith s p then drop (length p) s else s.

(** [s.split(sep)] for a one-character separator: never the empty list. *)
Fixpoint split (sep : N) (s : str) : list str :=
  match s with
  | [] => [[]]
  | c :: r =>
      if c =? sep then [] :: split sep r
      else match split sep r with
           | [] => [[c]]
           | x :: xs => (c :: x) :: xs
           end
  end.

(** [sep.join(xs)] *)
Fixpoint join (sep : str) (xs : list str) : str :=
  match xs with
  | [] => []
  | [x] => x
  | x :: xs' => x ++ sep ++ join sep xs'
  end.

(** Line boundaries of [str.splitlines]. *)
Definition is_linebreak (c : N) : bool :=
  ((10 <=? c) && (c <=? 13)) || ((28 <=? c) && (c <=? 30))
  || (c =? 133) || (c =? 8232) || (c =? 8233).

(** [s.splitlines()]: the lines without their boundaries; no empty last
    line. A carriage return directly followed by a line feed is one
    boundary. *)
Fixpoint splitlines (s : str) : list str :=
  match s with
  | [] => []
  | c :: r =>
      if is_linebreak c then
        [] :: (if c =? CR then
                 match r with
                 | c' :: r' => if c' =? LF then splitlines r' else splitlines r
                 | [] => splitlines r
                 end
               else splitlines r)
      else match splitlines r with
           | [] => [[c]]
           | x :: xs => (c :: x) :: xs
           end
  end.

(** [b.splitlines()] on [bytes]: only line feed, carriage return and the
    pair of them are boundaries. *)
Fixpoint bytes_splitlines (b : bytes) : list bytes :=
  match b with
  | [] => []
  | c :: r =>
      if Byte.eqb c x0a then [] :: bytes_splitlines r
      else if Byte.eqb c x0d then
        [] :: match r with
              | c' :: r' =>
                  if Byte.eqb c' x0a then bytes_splitlines r'
                  else bytes_splitlines r
              | [] => bytes_splitlines r
              end
      else match bytes_splitlines r with
           | [] => [[c]]
           | x :: xs => (c :: x) :: xs
           end
  end.

(** *** [bytes.decode('utf-8')], strict *)

Definition continuation (b : N) : bool := (128 <=? b) && (b <=? 191).
Definition payload (b : N) : N := N.land b 63.

Fixpoint utf8_decode (b : bytes) : option str :=
  match b with
  | [] => Some []
  | c0 :: r0 =>
      let b0 := Byte.to_N c0 in
      if b0 <? 128 then cons b0 <$> utf8_decode r0
      else if (194 <=? b0) && (b0 <=? 223) then
        match r0 with
        | c1 :: r1 =>
            let b1 := Byte.to_N c1 in
            if continuation b1
            then cons (N.lor (N.shiftl (N.land b0 31) 6) (payload b1))
                   <$> utf8_decode r1
            else None
        | _ => None
        end
      else if (224 <=? b0) && (b0 <=? 239) then
        match r0 with
        | c1 :: c2 :: r2 =>
            let b1 := Byte.to_N c1 in
            let b2 := Byte.to_N c2 in
            if continuation b1 && continuation b2
               && negb ((b0 =? 224) && (b1 <? 160))    (* overlong *)
               && negb ((b0 =? 237) && (160 <=? b1))   (* surrogates *)
            then cons (N.lor (N.shiftl (N.land b0 15) 12)
                         (N.lor (N.shiftl (payload b1) 6) (payload b2)))
                   <$> utf8_decode r2
            else None
        | _ => None
        end
      else if (240 <=? b0) && (b0 <=? 244) then
        match r0 with
        | c1 :: c2 :: c3 :: r3 =>
            let b1 := Byte.to_N c1 in
            let b2 := Byte.to_N c2 in
            let b3 := Byte.to_N c3 in
            if continuation b1 && continuation b2 && continuation b3
               && negb ((b0 =? 240) && (b1 <? 144))    (* overlong *)
               && negb ((b0 =? 244) && (144 <=? b1))   (* above U+10FFFF *)
            then cons (N.lor (N.shiftl (N.land b0 7) 18)
                         (N.lor (N.shiftl (payload b1) 12)
                            (N.lor (N.shiftl (payload b2) 6) (payload b3))))
                   <$> utf8_decode r3
            else None
        | _ => None
        end
      else None
  end.

Definition decode (b : bytes) : result str :=
  match utf8_decode b with
  | Some s => Ok s
  | None => Raise UnicodeDecodeError
  end.

(** *** [posixpath] *)

Definition sep : str := [SLASH].
Definition curdir : str := lit ".".
Definition pardir : str := lit "..".

(** [os.path.isabs(p)] *)
Definition isabs (p : str) : bool := startswith p sep.

(** One iteration of the component loop of [normpath]: [new_comps] is
    used as a stack whose top is the last element. *)
Definition normpath_step (initial_slashes : nat) (new_comps : list str)
    (comp : str) : list str :=
  if bool_decide (comp = [] ∨ comp = curdir) then new_comps
  else if bool_decide (comp ≠ pardir)
          || (bool_decide (initial_slashes = 0%nat)
              && bool_decide (new_comps = []))
          || (bool_decide (new_comps ≠ [])
              && bool_decide (last new_comps = Some pardir))
  then new_comps ++ [comp]
  else if bool_decide (new_comps ≠ []) then removelast new_comps
  else new_comps.

(** [os.path.normpath(path)] *)
Definition normpath (path : str) : str :=
  if bool_decide (path = []) then curdir
  else
    let initial_slashes : nat :=
      if startswith path sep then
        if startswith path (sep ++ sep)
           && negb (startswith path (sep ++ sep ++ sep))
        then 2%nat else 1%nat
      else 0%nat in
    let comps := split SLASH path in
    let new_comps := foldl (normpath_step initial_slashes) [] comps in
    let path := join sep new_comps in
    let path := mjoin (replicate initial_slashes sep) ++ path in
    if bool_decide (path = []) then curdir else path.

(** [os.path.join(a, b)] *)
Definition path_join (a b : str) : str :=
  if startswith b sep then b
  else if bool_decide (a = []) || endswith a sep then a ++ b
  else a ++ sep ++ b.

(** [os.path.abspath(path)], with [cwd] the answer of [os.getcwd()]. *)
Definition abspath (cwd path : str) : str :=
  normpath (if isabs path then path else path_join cwd path).

(** *** Text files *)

(** Reading in text mode with the default [newline=None]: a carriage
    return, alone or followed by a line feed, is read as a line feed. *)
Fixpoint universal_newlines (s : str) : str :=
  match s with
  | [] => []
  | c :: r =>
      if c =? CR then
        LF :: match r with
              | c' :: r' =>
                  if c' =? LF then universal_newlines r'
                  else universal_newlines r
              | [] => universal_newlines r
              end
      else c :: universal_newlines r
  end.

(** Lines of a translated text, each with its line feed kept. *)
Fixpoint keepends (s : str) : list str :=
  match s with
  | [] => []
  | c :: r =>
      if c =? LF then [LF] :: keepends r
      else match keepends r with
           | [] => [[c]]
           | x :: xs => (c :: x) :: xs
           end
  end.

(** [f.readlines()] of a file opened with [open(name, "r")] whose text is
    [content]. *)
Definition readlines (content : str) : list str :=
  keepends (universal_newlines content).

(** [print] of the unpacked list [xs] with [sep='\n'] into a file: the
    text written, the default [end='\n'] included. *)
Definition print_lines (xs : list str) : str := join [LF] xs ++ [LF].

(** *** Order on [str] and [list.sort] *)

(** [a <= b] on strings: lexicographic on code points. *)
Fixpoint str_leb (a b : str) : bool :=
  match a, b with
  | [], _ => true
  | _ :: _, [] => false
  | x :: a', y :: b' => (x <? y) || ((x =? y) && str_leb a' b')
  end.

Definition str_le (a b : str) : Prop := str_leb a b = true.

Global Instance str_le_dec a b : Decision (str_le a b).
Proof. unfold str_le. apply _. Defined.

(** [xs.sort()] leaves the sorted permutation of [xs]; for a total order
    that permutation is unique, so the algorithm does not matter. *)
Definition sort (xs : list str) : list str := merge_sort str_le xs.

(** [str(n)] for a count. *)
Definition str_of_nat (n : nat) : str := lit (pretty n).

End Py.

(** What a finished child process hands back to [subprocess]. *)
Record CompletedProcess := {
  returncode : Z;
  stdout : Py.bytes;
}.

(** ** extract_sources.py *)

Module extract_sources.
Import Py.

Inductive level := INFO | WARNING | ERROR.

(** A reference to a list object. *)
Definition loc := nat.

(** What the script changes: list objects, the texts of the regular
    files (by absolute path), and the log. *)
Record world := {
  heap : gmap loc (list str);
  files : gmap str str;
  log : list (level * str);
}.

Definition set_heap (f : gmap loc (list str) → gmap loc (list str))
    (w : world) : world :=
  {| heap := f (heap w); files := files w; log := log w |}.
Definition set_files (f : gmap str str → gmap str str) (w : world) : world :=
  {| heap := heap w; files := f (files w); log := log w |}.
Definition add_log (lvl : level) (msg : str) (w : world) : world :=
  {| heap := heap w; files := files w; log := log w ++ [(lvl, msg)] |}.

(** Two worlds with the same list objects and the same files. *)
Definition same_store (w w' : world) : Prop :=
  heap w' = heap w ∧ files w' = files w.

(** What the script is given by its surroundings. *)
Record env := {
  (** [os.getcwd()] *)
  getcwd : str;
  (** the run of [llvm-dwarfdump --show-sources binary]; [Raise] when the
      process cannot be started *)
  llvm_dwarfdump : str → result CompletedProcess;
  (** [glob.glob('**/*.ko', recursive=True)] *)
  glob_ko : list str;
  (** whether [os.makedirs(dir, exist_ok=True)] succeeds *)
  can_makedirs : str → bool;
  (** whether [open(file, 'w')], the write and the close all succeed *)
  can_write : str → bool;
  (** when they do not: [None] if [open] itself is refused, [Some n] if
      the file is opened and the write or the close fails once [n]
      characters have reached the file *)
  write_failure : str → option nat;
  (** the build collaborator: [setup_config] and [compile_kernel] run
      [make] and copy the config; their effect is not modelled further *)
  setup_config : str → M world unit;
  compile_kernel : M world unit;
}.

Record args := {
  config_path : str;
  output_dir : str;
  no_compile : bool;
}.

Definition OUTPUT_FILENAME : str := lit "sources.txt".
Definition BUILT_IN : str := lit "<built-in>".

Section with_env.
Variable E : env.

Definition CUR_DIR : str := abspath (getcwd E) curdir.

Definition logging (lvl : level) (msg : str) : M world unit :=
  modify (add_log lvl msg).

Definition normalize_source_path (path : str) : M world str :=
  let path := strip path in
  if negb (startswith path CUR_DIR) then
    _ ← logging WARNING (lit "Found anomalous source file path " ++ path);
    mret []
  else mret (normpath (removeprefix path (CUR_DIR ++ lit "/"))).

(** [subprocess.check_output(['llvm-dwarfdump', '--show-sources', b])] *)
Definition check_output (binary_path : str) : M world bytes :=
  p ← lift (llvm_dwarfdump E binary_path);
  if bool_decide (returncode p ≠ 0%Z)
  then raise (CalledProcessError (returncode p))
  else mret (stdout p).

(** [f not in ('', '<built-in>')] *)
Definition kept (f : str) : bool :=
  negb (bool_decide (f = []) || bool_decide (f = BUILT_IN)).

Definition extract_sources_from_binary (binary_path : str)
    : M world (list str) :=
  _ ← logging INFO (lit "Extracting sources from " ++ binary_path);
  raw ← check_output binary_path;
  output ← lift (decode raw);
  paths ← comprehension (splitlines (strip output)) normalize_source_path;
  mret (List.filter kept paths).

Definition binaries : list str := [lit "vmlinux"] ++ glob_ko E.

(** The order in which Python lists the elements of a set is not
    specified; [elements] stands for it. *)
Definition extract_sources : M world (list str) :=
  per_binary ← comprehension binaries extract_sources_from_binary;
  mret (elements (list_to_set (C := gset str) (mjoin per_binary))).

(** [open(file, 'w')]: refused, or the file is created or emptied. *)
Definition open_for_writing (file : str) : M world unit :=
  if can_write E file || bool_decide (is_Some (write_failure E file))
  then modify (set_files (<[file := []]>))
  else raise OSError.

(** [print(..., file=f)] and the close that ends the [with] block: the
    whole text reaches the file, or only its first characters do and
    [OSError] is raised. *)
Definition print_to_file (file text : str) : M world unit :=
  if can_write E file then modify (set_files (<[file := text]>))
  else
    _ ← modify (set_files
                  (<[file := take (default 0%nat (write_failure E file)) text]>));
    raise OSError.

(** [sources] is the caller's list object. *)
Definition write_sources (sources : loc) (output_dir : str) : M world unit :=
  _ ← modify (set_heap (alter sort sources));
  let output_dir := abspath (getcwd E) output_dir in
  let output_file := path_join output_dir OUTPUT_FILENAME in
  _ ← logging INFO (lit "Writing sources to " ++ output_file);
  _ ← (if can_makedirs E output_dir then mret tt else raise OSError);
  _ ← open_for_writing output_file;
  xs ← gets (λ w, heap w !!! sources);
  print_to_file output_file (print_lines xs).

(** The [output_file] of [write_sources] when given [output_dir]. *)
Definition output_file_in (output_dir : str) : str :=
  path_join (abspath (getcwd E) output_dir) OUTPUT_FILENAME.

(** A new list object holding [xs]. *)
Definition new_list (xs : list str) : M world loc :=
  λ w, let l := fresh (dom (heap w)) in
       (Ok l, set_heap (<[l := xs]>) w).

(** [logging.exception(e.add_note(...))] then [exit(0)]: [add_note]
    returns [None], which is what gets logged. *)
Definition log_and_exit {A} (e : exn) : M world A :=
  _ ← logging ERROR (lit "None");
  raise (SystemExit 0).

(** The part of [main] after the build: extract, then write. *)
Definition extract_and_write (a : args) : M world unit :=
  sources ← try_except (xs ← extract_sources; new_list xs) log_and_exit;
  try_except (write_sources sources (output_dir a)) log_and_exit.

(** The part of [main] before it: the build, unless [--no-compile]. *)
Definition build (a : args) : M world unit :=
  if negb (no_compile a) then
    _ ← try_except (setup_config E (config_path a)) log_and_exit;
    try_except (compile_kernel E) log_and_exit
  else mret tt.

Definition main (a : args) : M world unit :=
  _ ← build a;
  extract_and_write a.

End with_env.
End extract_sources.

(** ** process_cves.py *)

Module process_cves.
Import Py.

(** A vulnerability record as the script reads it: the keys it looks up
    are present and hold what it expects. *)
Record Reference := { url : str }.
Record Cve := {
  id : str;
  references : list Reference;
}.

Record Response := {
  status_code : Z;
  text : str;
}.

(** What the script changes or causes: the lines it prints and the
    commits it asks git about, both in order. *)
Record world := {
  printed : list str;
  queries : list str;
}.

Definition print (line : str) : M world unit :=
  modify (λ w : world,
            {| printed := printed w ++ [line]; queries := queries w |}).
Definition record_query (commit : str) : M world unit :=
  modify (λ w : world,
            {| printed := printed w; queries := queries w ++ [commit] |}).

Record env := {
  (** [requests.get(url)] for the fixed feed URL *)
  requests_get : result Response;
  (** [json.loads(text)] followed by the comprehension over
      [results["vulnerabilities"]] taking each entry's ["cve"] *)
  json_cves : str → result (list Cve);
  (** the run of [git show --pretty= --name-only commit] in the pinned
      checkout; [Raise] when the process cannot be started *)
  git_show : str → result CompletedProcess;
  (** the text of [compiled_files.txt] in the current directory *)
  open_compiled_files : result str;
}.

Definition FIX_COMMIT_PREFIX : str := lit "https://git.kernel.org/stable/c/".

Section with_env.
Variable E : env.

Definition fetch_cves : M world (list Cve) :=
  response ← lift (requests_get E);
  if bool_decide (status_code response ≠ 200%Z) then
    _ ← print (lit "Failed to fetch CVEs");
    mret []
  else lift (json_cves E (text response)).

(** [subprocess.run(["git", "show", ...], check=False)] *)
Definition subprocess_run (commit : str) : M world CompletedProcess :=
  _ ← record_query commit;
  lift (git_show E commit).

(** [ref["url"].split("/")[-1].strip()] *)
Definition commit_of (u : str) : str :=
  strip (default [] (last (split SLASH u))).

(** [line.decode("utf-8").strip()] *)
Definition affected_file (line : bytes) : M world str :=
  s ← lift (decode line);
  mret (strip s).

(** The loop of [evaluate_cve] over the remaining references. *)
Fixpoint evaluate_refs (refs : list Reference) (compiled_files : gset str)
    : M world bool :=
  match refs with
  | [] => mret false
  | ref :: rest =>
      if startswith (url ref) FIX_COMMIT_PREFIX then
        let commit := commit_of (url ref) in
        response ← subprocess_run commit;
        if bool_decide (returncode response ≠ 0%Z)
        then evaluate_refs rest compiled_files
        else
          affected_files ←
            comprehension (bytes_splitlines (stdout response)) affected_file;
          mret (existsb (λ f, bool_decide (f ∈ compiled_files)) affected_files)
      else evaluate_refs rest compiled_files
  end.

Definition evaluate_cve (cve : Cve) (compiled_files : gset str)
    : M world bool :=
  evaluate_refs (references cve) compiled_files.

(** Lines 47-48 of [main]: the set read from the text of the file. *)
Definition load_compiled_files (content : str) : gset str :=
  list_to_set ((λ f, normpath (strip f)) <$> readlines content).

(** A path that a line of its own in the file gives back: it has no
    line break inside, and stripping and [normpath] leave it as it is. *)
Definition read_back_as_is (s : str) : Prop :=
  normpath (strip s) = s ∧ (LF ∉ s) ∧ (CR ∉ s).

(** The loop of [main]; [count] is threaded through it. *)
Fixpoint count_cves (cves : list Cve) (compiled_files : gset str)
    (count : nat) : M world nat :=
  match cves with
  | [] => mret count
  | cve :: rest =>
      _ ← print (lit "Processing CVE: " ++ id cve);
      applicable ← evaluate_cve cve compiled_files;
      if applicable : bool return M world nat then
        _ ← print (id cve);
        count_cves rest compiled_files (count + 1)%nat
      else count_cves rest compiled_files count
  end.

Definition main : M world unit :=
  content ← lift (open_compiled_files E);
  let compiled_files := load_compiled_files content in
  cves ← fetch_cves;
  count ← count_cves cves compiled_files 0%nat;
  print (lit "We care about " ++ str_of_nat count ++ lit " CVEs").

End with_env.
End process_cves.

(** ** Concrete runs used below *)

Module Scenarios.
Import Py.

Definition ascii_bytes (s : string) : bytes := String.list_byte_of_string s.

(** A child process that exits with 0 after printing [lines], each
    followed by a line feed. *)
Definition exits_ok (lines : list string) : result CompletedProcess :=
  Ok {| returncode := 0;
        stdout := mjoin ((λ l, ascii_bytes l ++ [x0a]) <$> lines) |}.

(** A text file holding [lines], each followed by a line feed. *)
Definition text_of (lines : list string) : str :=
  mjoin ((λ l, lit l ++ [LF]) <$> lines).

(** A child process that exits with [code] and printed nothing. *)
Definition exits_with (code : Z) : result CompletedProcess :=
  Ok {| returncode := code; stdout := [] |}.

(** The answers of a tool, by argument; an argument that is not listed
    makes the tool exit with 1. *)
Fixpoint answers (table : list (string * result CompletedProcess))
    (arg : str) : result CompletedProcess :=
  match table with
  | [] => exits_with 1
  | (name, r) :: table' =>
      if bool_decide (arg = lit name) then r else answers table' arg
  end.

(** A build in [/k] whose modules are [modules] and whose artifacts make
    the debug-info tool answer by [table]; every write succeeds. *)
Definition build_in_k (modules : list string)
    (table : list (string * result CompletedProcess)) : extract_sources.env :=
  {| extract_sources.getcwd := lit "/k";
     extract_sources.llvm_dwarfdump := answers table;
     extract_sources.glob_ko := lit <$> modules;
     extract_sources.can_makedirs := λ _, true;
     extract_sources.can_write := λ _, true;
     extract_sources.write_failure := λ _, None;
     extract_sources.setup_config := λ _, mret tt;
     extract_sources.compile_kernel := mret tt |}.

Definition no_files : extract_sources.world :=
  {| extract_sources.heap := ∅;
     extract_sources.files := ∅;
     extract_sources.log := [] |}.

(** A world with one list object, at address 0. *)
Definition one_list (xs : list string) : extract_sources.world :=
  {| extract_sources.heap := {[ 0%nat := lit <$> xs ]};
     extract_sources.files := ∅;
     extract_sources.log := [] |}.

Definition to_out : extract_sources.args :=
  {| extract_sources.config_path := lit ".config";
     extract_sources.output_dir := lit "out";
     extract_sources.no_compile := true |}.

(** A feed answering with [status] and [cves], a checkout answering by
    [table], and a compiled-file list holding the lines [compiled]. *)
Definition correlator (status : Z) (cves : list process_cves.Cve)
    (table : list (string * result CompletedProcess))
    (compiled : list string) : process_cves.env :=
  {| process_cves.requests_get :=
       Ok {| process_cves.status_code := status; process_cves.text := [] |};
     process_cves.json_cves := λ _, Ok cves;
     process_cves.git_show := answers table;
     process_cves.open_compiled_files := Ok (text_of compiled) |}.

Definition cve_with (name : string) (urls : list string) : process_cves.Cve :=
  {| process_cves.id := lit name;
     process_cves.references :=
       (λ u, {| process_cves.url := lit u |}) <$> urls |}.

Definition quiet : process_cves.world :=
  {| process_cves.printed := []; process_cves.queries := [] |}.

(** A compiled set of two files. *)
Definition two_compiled : gset str :=
  {[ lit "drivers/net/e1000.c"; lit "kernel/sched/core.c" ]}.

End Scenarios.

(** ** Notions used to state what [normpath] returns *)

Module Normal.
Import Py.

(** The [initial_slashes] that [normpath] computes for a non-empty path. *)
Definition slashes (path : str) : nat :=
  if startswith path sep then
    if startswith path (sep ++ sep)
       && negb (startswith path (sep ++ sep ++ sep))
    then 2%nat else 1%nat
  else 0%nat.

(** The [new_comps] that [normpath] is left with after its loop. *)
Definition comps (path : str) : list str :=
  foldl (normpath_step (slashes path)) [] (split SLASH path).

(** A component that the loop of [normpath] keeps. *)
Definition kept_comp (c : str) : Prop :=
  c ≠ [] ∧ c ≠ curdir ∧ SLASH ∉ c.

(** Components in normal form: every [..] stands before all other
    components, and only in a relative path. *)
Definition normal (n : nat) (l : list str) : Prop :=
  Forall kept_comp l
  ∧ ∀ l1 l2, l = l1 ++ pardir :: l2 →
             n = 0%nat ∧ Forall (λ c, c = pardir) l1.

End Normal.

(** ** Notions used to state what the runs leave behind *)

Module Effects.
Import Py.

(** The second world differs from the first by new log entries only. *)
Definition only_logged (w w' : extract_sources.world) : Prop :=
  extract_sources.heap w' = extract_sources.heap w
  ∧ extract_sources.files w' = extract_sources.files w
  ∧ extract_sources.log w `prefix_of` extract_sources.log w'.

(** The commits of the fix-commit references of a record, in order. *)
Definition fix_commits (refs : list process_cves.Reference) : list str :=
  (λ r, process_cves.commit_of (process_cves.url r))
  <$> List.filter
        (λ r, startswith (process_cves.url r) process_cves.FIX_COMMIT_PREFIX)
        refs.

(** The world after more queries. *)
Definition with_queries (w : process_cves.world) (qs : list str)
    : process_cves.world :=
  {| process_cves.printed := process_cves.printed w;
     process_cves.queries := process_cves.queries w ++ qs |}.

End Effects.

(** ** Notions used to state the verdict and the report of the correlator *)

Module Verdict.
Import Py.

(** The normalization [main] applies to a line of the compiled-file
    list: surrounding whitespace is stripped, then [normpath]. *)
Definition normalized (f : str) : str := normpath (strip f).

(** The spec's test: both lists of paths are normalized in that one
    way, and the two sets of paths meet. *)
Definition intersect (query_lines compiled_lines : list str) : Prop :=
  (list_to_set (normalized <$> query_lines) : gset str)
  ∩ list_to_set (normalized <$> compiled_lines) ≢ ∅.

(** What [git show --name-only] prints: paths relative to the root of
    the checkout, which [normpath] leaves as they are. *)
Definition normal_paths (lines : list str) : Prop :=
  Forall (λ f, normpath (strip f) = strip f) lines.

Section with_env.
Variable E : process_cves.env.

(** Whether [evaluate_cve] answers true for a record. *)
Definition applicable (compiled : gset str) (cve : process_cves.Cve) : bool :=
  match (process_cves.evaluate_cve E cve compiled
           {| process_cves.printed := []; process_cves.queries := [] |}).1 with
  | Ok true => true
  | _ => false
  end.

(** The lines the loop of [main] prints for one record. *)
Definition record_lines (compiled : gset str) (cve : process_cves.Cve)
    : list str :=
  (lit "Processing CVE: " ++ process_cves.id cve)
  :: (if applicable compiled cve then [process_cves.id cve] else []).

(** All that [main] prints after a feed that answered with records. *)
Definition report (compiled : gset str) (cves : list process_cves.Cve)
    : list str :=
  mjoin (record_lines compiled <$> cves)
  ++ [lit "We care about "
      ++ str_of_nat (length (List.filter (applicable compiled) cves))
      ++ lit " CVEs"].

End with_env.
End Verdict.

(** ** More concrete runs *)

Module Runs.
Import Py Scenarios.

(** Two artifacts in [/k] that both name [a.c], one of them three times
    and in two spellings. *)
Definition two_artifacts : extract_sources.env :=
  build_in_k ["drivers/net/e1000.ko"]
    [("vmlinux", exits_ok ["/k/a.c"; "/k/./a.c"; "/k/a.c"]);
     ("drivers/net/e1000.ko", exits_ok ["/k/a.c"; "<built-in>"])].

(** A build on a full disk: the file is opened, and the write fails
    before any character reaches it. *)
Definition disk_full : extract_sources.env :=
  {| extract_sources.getcwd := lit "/k";
     extract_sources.llvm_dwarfdump :=
       answers [("vmlinux", exits_ok ["/k/a.c"])];
     extract_sources.glob_ko := [];
     extract_sources.can_makedirs := λ _, true;
     extract_sources.can_write := λ _, false;
     extract_sources.write_failure := λ _, Some 0%nat;
     extract_sources.setup_config := λ _, mret tt;
     extract_sources.compile_kernel := mret tt |}.

(** A build whose configuration step fails: [make] exits with 2. *)
Definition broken_config : extract_sources.env :=
  {| extract_sources.getcwd := lit "/k";
     extract_sources.llvm_dwarfdump :=
       answers [("vmlinux", exits_ok ["/k/a.c"])];
     extract_sources.glob_ko := [];
     extract_sources.can_makedirs := λ _, true;
     extract_sources.can_write := λ _, true;
     extract_sources.write_failure := λ _, None;
     extract_sources.setup_config := λ _, raise (CalledProcessError 2);
     extract_sources.compile_kernel := mret tt |}.

(** A world in which the output file of an earlier run exists. *)
Definition earlier_output : extract_sources.world :=
  {| extract_sources.heap := ∅;
     extract_sources.files := {[ lit "/k/out/sources.txt" := lit "old" ++ [LF] ]};
     extract_sources.log := [] |}.

Definition with_build : extract_sources.args :=
  {| extract_sources.config_path := lit ".config";
     extract_sources.output_dir := lit "out";
     extract_sources.no_compile := false |}.

(** A record with an unresolvable fix commit before a resolvable one. *)
Definition bad_then_good : process_cves.Cve :=
  cve_with "CVE-M" ["https://example.org/advisory";
                    "https://git.kernel.org/stable/c/bad";
                    "https://git.kernel.org/stable/c/good";
                    "https://git.kernel.org/stable/c/other"].

(** A checkout that knows [good], which touched [a.c], and [raw], whose
    output is the single byte [0xff]. *)
Definition checkout (compiled : list string) : process_cves.env :=
  correlator 200 [bad_then_good]
    [("bad", exits_with 128);
     ("good", exits_ok ["a.c"]);
     ("raw", Ok {| returncode := 0; stdout := [xff; x0a] |})]
    compiled.

End Runs.

(** * Properties *)

(** Unfolds the monad so that a run of the model computes. *)
Ltac run :=
  unfold mbind, M_bind, bind, mret, M_ret, ret, lift, modify, raise, gets,
    try_except; simpl.

(** Running a bind whose first part is known. *)
Lemma bind_Ok {S A B} (m : M S A) (k : A → M S B) (w w' : S) (a : A) :
  m w = (Ok a, w') → (m ≫= k) w = k a w'.
Proof. intros H. unfold mbind, M_bind, bind. by rewrite H. Qed.

Lemma bind_Raise {S A B} (m : M S A) (k : A → M S B) (w w' : S) (e : exn) :
  m w = (Raise e, w') → (m ≫= k) w = (Raise e, w').
Proof. intros H. unfold mbind, M_bind, bind. by rewrite H. Qed.

Lemma bind_Ok_inv {S A B} (m : M S A) (k : A → M S B) (w w' : S) (b : B) :
  (m ≫= k) w = (Ok b, w') → ∃ a w1, m w = (Ok a, w1) ∧ k a w1 = (Ok b, w').
Proof.
  unfold mbind, M_bind, bind. destruct (m w) as [[a|e] w1]; [|done]. eauto.
Qed.

Section extract_sources_properties.
Local Opaque Py.lit.
Import Py extract_sources.
Variable E : env.

(** Normalization returns for every line: it has no raising path. *)
Lemma normalize_source_path_returns (raw : str) (w : world) :
  ∃ p w', normalize_source_path E raw w = (Ok p, w').
Proof.
  unfold normalize_source_path.
  destruct (startswith (strip raw) (CUR_DIR E)); run; eauto.
Qed.

(** C6. A line that, once its surrounding whitespace is trimmed as the
    function does first, does not start with the build root is answered
    with the empty string, without an exception, whatever the string,
    and one warning naming the trimmed line is logged. *)
Theorem normalize_source_path_outside_build_root (raw : str) (w : world) :
  startswith (strip raw) (CUR_DIR E) = false →
  normalize_source_path E raw w
  = (Ok [], add_log WARNING
              (lit "Found anomalous source file path " ++ strip raw) w).
Proof. intros Hout. unfold normalize_source_path. by rewrite Hout. Qed.

End extract_sources_properties.

Section comprehension_properties.
Context {S A B : Type}.
Implicit Types (f : A → M S B) (w : S).

Lemma comprehension_cons_Ok f x xs w ys w' :
  comprehension (x :: xs) f w = (Ok ys, w') →
  ∃ y ys' w1, f x w = (Ok y, w1)
              ∧ comprehension xs f w1 = (Ok ys', w') ∧ ys = y :: ys'.
Proof.
  simpl. unfold mbind, M_bind, bind.
  destruct (f x w) as [[y|e] w1] eqn:Hy; [|done].
  destruct (comprehension xs f w1) as [[ys'|e] w2] eqn:Hys; [|done].
  unfold mret, M_ret, ret. intros [= <- <-]. by exists y, ys', w1.
Qed.

(** Each element of the input has its image in the output. *)
Lemma comprehension_elem_of f xs w ys w' x :
  comprehension xs f w = (Ok ys, w') → x ∈ xs →
  ∃ y w1 w2, f x w1 = (Ok y, w2) ∧ y ∈ ys.
Proof.
  revert w ys. induction xs as [|x0 xs IH]; intros w ys Hrun Hin.
  - by apply elem_of_nil in Hin.
  - apply comprehension_cons_Ok in Hrun as (y & ys' & w1 & Hy & Hrest & ->).
    apply elem_of_cons in Hin as [->|Hin].
    + exists y, w, w1. split; [done|]. left.
    + destruct (IH _ _ Hrest Hin) as (y' & wa & wb & Hf & Hy').
      exists y', wa, wb. split; [done|]. by right.
Qed.

(** Each element of the output is the image of an element of the input. *)
Lemma comprehension_elem_of_inv f xs w ys w' y :
  comprehension xs f w = (Ok ys, w') → y ∈ ys →
  ∃ x w1 w2, x ∈ xs ∧ f x w1 = (Ok y, w2).
Proof.
  revert w ys. induction xs as [|x0 xs IH]; intros w ys Hrun Hin.
  - injection Hrun as <- _. by apply elem_of_nil in Hin.
  - apply comprehension_cons_Ok in Hrun as (y0 & ys' & w1 & Hy & Hrest & ->).
    apply elem_of_cons in Hin as [->|Hin].
    + exists x0, w, w1. split; [left|done].
    + destruct (IH _ _ Hrest Hin) as (x & wa & wb & Hx & Hf).
      exists x, wa, wb. split; [by right|done].
Qed.

(** What every step preserves, the whole comprehension preserves. *)
Lemma comprehension_preserves (R : relation S) `{!PreOrder R} f xs w :
  (∀ x w, R w (f x w).2) → R w (comprehension xs f w).2.
Proof.
  intros Hstep. revert w. induction xs as [|x xs IH]; intros w; [done|].
  simpl. unfold mbind, M_bind, bind.
  specialize (Hstep x w). destruct (f x w) as [[y|e] w1]; [|done].
  specialize (IH w1). destruct (comprehension xs f w1) as [[ys|e] w2];
    simpl in *; by etrans.
Qed.

(** An element on which the step raises in every world makes the whole
    comprehension raise. *)
Lemma comprehension_raises f xs w x :
  x ∈ xs → (∀ w, ∃ e w', f x w = (Raise e, w')) →
  ∃ e w', comprehension xs f w = (Raise e, w').
Proof.
  intros Hin Hx. revert w. induction xs as [|x0 xs IH]; intros w.
  - by apply elem_of_nil in Hin.
  - simpl. unfold mbind, M_bind, bind.
    destruct (f x0 w) as [[y|e] w1] eqn:Hf; [|by eauto].
    apply elem_of_cons in Hin as [->|Hin].
    + destruct (Hx w) as (e & w' & He). congruence.
    + destruct (IH Hin w1) as (e & w' & ->). eauto.
Qed.

End comprehension_properties.

Section extract_sources_runs.
Local Opaque Py.lit.
Import Py extract_sources.
Variable E : env.

Local Instance same_store_preorder : PreOrder same_store.
Proof.
  split.
  - by intros w.
  - intros w1 w2 w3 [H1 H2] [H3 H4]. split; congruence.
Qed.

(** The path returned for a line does not depend on the world. *)
Lemma normalize_source_path_any_world raw w0 w1 q w :
  normalize_source_path E raw w0 = (Ok q, w1) →
  ∃ w', normalize_source_path E raw w = (Ok q, w').
Proof.
  unfold normalize_source_path.
  destruct (startswith (strip raw) (CUR_DIR E)); run; intros [= <- _]; eauto.
Qed.

Lemma normalize_source_path_same_store raw w :
  same_store w (normalize_source_path E raw w).2.
Proof.
  unfold normalize_source_path.
  by destruct (startswith (strip raw) (CUR_DIR E)).
Qed.

(** Extraction from one artifact only adds to the log. *)
Lemma extract_sources_from_binary_same_store binary w :
  same_store w (extract_sources_from_binary E binary w).2.
Proof.
  unfold extract_sources_from_binary, check_output, logging. run.
  destruct (llvm_dwarfdump E binary) as [p|e]; [|done]. simpl.
  destruct (bool_decide (returncode p ≠ 0%Z)); [done|]. simpl.
  destruct (decode (stdout p)) as [output|e]; [|done]. simpl.
  pose proof (comprehension_preserves same_store (normalize_source_path E)
                (splitlines (strip output))
                (add_log INFO (lit "Extracting sources from " ++ binary) w)
                normalize_source_path_same_store) as Hc.
  destruct (comprehension _ _ _) as [[ps|e] w1]; simpl in *;
    destruct Hc as [H1 H2]; split; by rewrite ?H1, ?H2.
Qed.

(** A successful extraction from one artifact: the tool exited with 0,
    printed valid UTF-8, and the result is the kept normalized lines. *)
Lemma extract_sources_from_binary_Ok binary w ps w' :
  extract_sources_from_binary E binary w = (Ok ps, w') →
  ∃ p output paths w1,
    llvm_dwarfdump E binary = Ok p ∧ returncode p = 0%Z
    ∧ decode (stdout p) = Ok output
    ∧ comprehension (splitlines (strip output)) (normalize_source_path E)
        (add_log INFO (lit "Extracting sources from " ++ binary) w)
      = (Ok paths, w1)
    ∧ ps = List.filter kept paths.
Proof.
  unfold extract_sources_from_binary, check_output, logging. run.
  destruct (llvm_dwarfdump E binary) as [p|e]; [|done]. simpl.
  case_bool_decide as Hrc; [done|]. simpl.
  destruct (decode (stdout p)) as [output|e] eqn:Hdec; [|done]. simpl.
  destruct (comprehension _ _ _) as [[paths|e] w1] eqn:Hc; [|done].
  intros [= <- <-].
  by exists p, output, paths, w1.
Qed.

(** An artifact for which the tool exits non-zero makes the extraction
    from it raise, in every world. *)
Lemma extract_sources_from_binary_raises binary p w :
  llvm_dwarfdump E binary = Ok p → returncode p ≠ 0%Z →
  ∃ e w', extract_sources_from_binary E binary w = (Raise e, w').
Proof.
  intros Hp Hrc.
  unfold extract_sources_from_binary, check_output, logging. run.
  rewrite Hp. simpl. rewrite bool_decide_true by done. eauto.
Qed.

(** What [extract_sources] returns when it returns. *)
Lemma extract_sources_Ok w xs w' :
  extract_sources E w = (Ok xs, w') →
  ∃ per_binary,
    comprehension (binaries E) (extract_sources_from_binary E) w
      = (Ok per_binary, w')
    ∧ xs = elements (list_to_set (C := gset str) (mjoin per_binary)).
Proof.
  unfold extract_sources.
  intros (per_binary & w1 & Hrun & [= <- <-])%bind_Ok_inv.
  by exists per_binary.
Qed.

(** Every path of the extracted list is non-empty and is not the
    pseudo-source [<built-in>]. *)
Lemma extract_sources_kept w xs w' :
  extract_sources E w = (Ok xs, w') →
  Forall (λ p, p ≠ [] ∧ p ≠ BUILT_IN) xs.
Proof.
  intros (per_binary & Hrun & ->)%extract_sources_Ok.
  apply Forall_forall. intros p Hp.
  apply elem_of_elements, elem_of_list_to_set, list_elem_of_join in Hp
    as (ps & Hp & Hps).
  destruct (comprehension_elem_of_inv _ _ _ _ _ _ Hrun Hps)
    as (binary & w1 & w2 & _ & Hbin).
  apply extract_sources_from_binary_Ok in Hbin
    as (_ & _ & paths & _ & _ & _ & _ & _ & ->).
  apply list_elem_of_In, filter_In in Hp as [_ Hkept].
  unfold kept in Hkept. apply negb_true_iff, orb_false_iff in Hkept as [H1 H2].
  by apply bool_decide_eq_false in H1, H2.
Qed.

(** C9. The extracted list has no duplicates: a line printed for any
    artifact, any number of times, has its normalized path exactly once
    in the list when that path is kept, and not at all when it is
    dropped. *)
Theorem extract_sources_no_duplicates (w : world) (xs : list str)
    (w' : world) :
  extract_sources E w = (Ok xs, w') →
  NoDup xs
  ∧ ∀ binary p output raw q w0 w1,
      binary ∈ binaries E →
      llvm_dwarfdump E binary = Ok p →
      decode (stdout p) = Ok output →
      raw ∈ splitlines (strip output) →
      normalize_source_path E raw w0 = (Ok q, w1) →
      count_occ (λ a b, decide (a = b)) xs q
      = if kept q then 1%nat else 0%nat.
Proof.
  intros Hrun0. pose proof (extract_sources_kept _ _ _ Hrun0) as Hkeptall.
  apply extract_sources_Ok in Hrun0 as (per_binary & Hrun & ->).
  split; [apply NoDup_elements|].
  intros binary p output raw q w0 w1 Hbin Hp Hout Hraw Hq.
  destruct (kept q) eqn:Hkept.
  - apply NoDup_count_occ'; [apply NoDup_ListNoDup, NoDup_elements|].
    apply list_elem_of_In, elem_of_elements, elem_of_list_to_set,
      list_elem_of_join.
    destruct (comprehension_elem_of _ _ _ _ _ _ Hrun Hbin)
      as (ps & wa & wb & Hps & Hin).
    exists ps. split; [|done].
    apply extract_sources_from_binary_Ok in Hps
      as (p' & output' & paths & wc & Hp' & _ & Hout' & Hpaths & ->).
    rewrite Hp in Hp'. injection Hp' as <-.
    rewrite Hout in Hout'. injection Hout' as <-.
    destruct (comprehension_elem_of _ _ _ _ _ _ Hpaths Hraw)
      as (q' & wd & we & Hq' & Hin').
    destruct (normalize_source_path_any_world _ _ _ _ wd Hq) as (wf & Hq'').
    rewrite Hq' in Hq''. injection Hq'' as -> _.
    apply list_elem_of_In, filter_In. split; [by apply list_elem_of_In|done].
  - apply count_occ_not_In. intros Hin%list_elem_of_In.
    rewrite Forall_forall in Hkeptall. destruct (Hkeptall q Hin) as [H1 H2].
    unfold kept in Hkept. apply negb_false_iff, orb_true_iff in Hkept
      as [H|H]; by apply bool_decide_eq_true in H.
Qed.

(** When the tool exits non-zero for one of the artifacts, extraction
    and writing end in [SystemExit] and only the log has grown. *)
Lemma extract_and_write_tool_failure (a : args) (w : world) (binary : str)
    (p : CompletedProcess) :
  binary ∈ binaries E →
  llvm_dwarfdump E binary = Ok p →
  returncode p ≠ 0%Z →
  ∃ code w', extract_and_write E a w = (Raise (SystemExit code), w')
             ∧ same_store w w'.
Proof.
  intros Hbin Hp Hrc.
  destruct (comprehension_raises (extract_sources_from_binary E)
              (binaries E) w binary Hbin) as (e & w1 & Hraise).
  { intros w0. by apply extract_sources_from_binary_raises with p. }
  pose proof (comprehension_preserves same_store
                (extract_sources_from_binary E) (binaries E) w
                extract_sources_from_binary_same_store) as Hsame.
  rewrite Hraise in Hsame. destruct Hsame as [Hheap Hfiles].
  unfold extract_and_write, extract_sources.
  rewrite (bind_Raise _ _ w
             (if is_Exception e then add_log ERROR (lit "None") w1 else w1)
             (SystemExit (if is_Exception e then 0
                          else match e with SystemExit c => c | _ => 0 end))).
  - eexists _, _. split; [done|]. by destruct (is_Exception e).
  - unfold try_except. rewrite (bind_Raise _ _ w w1 e).
    + by destruct e.
    + by apply bind_Raise.
Qed.

(** C5. When the debug-info tool exits non-zero for one of the
    artifacts, [main] ends in [SystemExit] once the build, if any, is
    done; the files and the list objects are then what they were when
    extraction began, so no output file has been written or changed. *)
Theorem main_tool_failure (a : args) (w wb : world) (binary : str)
    (p : CompletedProcess) :
  binary ∈ binaries E →
  llvm_dwarfdump E binary = Ok p →
  returncode p ≠ 0%Z →
  build E a w = (Ok tt, wb) →
  ∃ code w', main E a w = (Raise (SystemExit code), w')
             ∧ files w' = files wb ∧ heap w' = heap wb.
Proof.
  intros Hbin Hp Hrc Hbuild.
  destruct (extract_and_write_tool_failure a wb binary p Hbin Hp Hrc)
    as (code & w' & Hrun & Hheap & Hfiles).
  exists code, w'. split; [|done].
  unfold main. by rewrite (bind_Ok _ _ w wb tt).
Qed.

End extract_sources_runs.

Section sort_properties.
Import Py.

Lemma str_leb_cons x a y b :
  str_leb (x :: a) (y :: b) = true ↔ x < y ∨ (x = y ∧ str_leb a b = true).
Proof.
  simpl. rewrite orb_true_iff, andb_true_iff, N.ltb_lt, N.eqb_eq. tauto.
Qed.

Global Instance str_le_total : Total str_le.
Proof.
  intros a. unfold str_le. induction a as [|x a IH]; intros [|y b];
    [by left|by left|by right|].
  rewrite !str_leb_cons. destruct (IH b) as [H|H];
    destruct (N.lt_total x y) as [?|[?|?]]; naive_solver.
Qed.

Global Instance str_le_trans : Transitive str_le.
Proof.
  intros a. unfold str_le. induction a as [|x a IH]; intros [|y b] [|z c];
    try done.
  rewrite !str_leb_cons. intros [?|[-> ?]] [?|[-> ?]]; [left; lia|by left..|].
  right. split; [done|]. by apply IH with b.
Qed.

Global Instance str_le_antisymm : AntiSymm (=) str_le.
Proof.
  intros a. unfold str_le. induction a as [|x a IH]; intros [|y b]; try done.
  rewrite !str_leb_cons. intros [?|[-> ?]] [?|[? ?]]; try lia.
  f_equal. by apply IH.
Qed.

Lemma sort_Sorted xs : Sorted str_le (sort xs).
Proof. apply (Sorted_merge_sort str_le). Qed.

Lemma sort_Permutation xs : sort xs ≡ₚ xs.
Proof. apply (merge_sort_Permutation str_le). Qed.

(** Sorting changes a list exactly when it was not sorted. *)
Lemma sort_fixed xs : sort xs = xs ↔ Sorted str_le xs.
Proof.
  split.
  - intros <-. apply sort_Sorted.
  - intros Hs. apply (Sorted_unique str_le); [apply sort_Sorted|done|].
    apply sort_Permutation.
Qed.

End sort_properties.

Section write_sources_properties.
Local Opaque Py.lit.
Import Py extract_sources.
Variable E : env.

(** The list object after [write_sources], whether or not the write
    went through. *)
Lemma write_sources_heap sources dir w :
  heap (write_sources E sources dir w).2 = alter sort sources (heap w).
Proof.
  unfold write_sources, open_for_writing, print_to_file, logging. run.
  destruct (can_makedirs E _); [|done]. simpl.
  destruct (can_write E _); [done|]. simpl.
  by destruct (bool_decide _).
Qed.

(** C10. The list object the caller hands to [write_sources] holds,
    after the call and whether or not the write went through, the sorted
    permutation of what it held before: the same elements, in order,
    and a different list exactly when the caller's list was not sorted
    already. *)
Theorem write_sources_sorts_argument (sources : loc) (dir : str) (w : world)
    (xs : list str) :
  heap w !! sources = Some xs →
  heap (write_sources E sources dir w).2 !! sources = Some (sort xs)
  ∧ Sorted str_le (sort xs)
  ∧ sort xs ≡ₚ xs
  ∧ (∀ x, x ∈ sort xs ↔ x ∈ xs)
  ∧ (sort xs = xs ↔ Sorted str_le xs).
Proof.
  intros Hxs. rewrite write_sources_heap. split_and!.
  - by rewrite lookup_alter_eq, Hxs.
  - apply sort_Sorted.
  - apply sort_Permutation.
  - intros x. by rewrite sort_Permutation.
  - apply sort_fixed.
Qed.

End write_sources_properties.

Section text_file_properties.
Import Py.

Lemma print_lines_nonempty (xs : list str) :
  xs ≠ [] → print_lines xs = mjoin ((λ s, s ++ [LF]) <$> xs).
Proof.
  unfold print_lines. induction xs as [|x [|y xs] IH]; intros Hne; [done|..].
  - simpl. by rewrite app_nil_r.
  - change (join [LF] (x :: y :: xs)) with (x ++ [LF] ++ join [LF] (y :: xs)).
    rewrite <- !app_assoc, IH by done. simpl. by rewrite <- !app_assoc.
Qed.

Lemma universal_newlines_no_CR (s : str) :
  CR ∉ s → universal_newlines s = s.
Proof.
  induction s as [|c s IH]; intros Hs; [done|].
  apply not_elem_of_cons in Hs as [Hc Hs]. simpl.
  destruct (N.eqb_spec c CR) as [->|_]; [done|]. by rewrite IH.
Qed.

Lemma keepends_line (s rest : str) :
  LF ∉ s → keepends ((s ++ [LF]) ++ rest) = (s ++ [LF]) :: keepends rest.
Proof.
  induction s as [|c s IH]; intros Hs; [done|].
  apply not_elem_of_cons in Hs as [Hc Hs].
  rewrite <- !app_comm_cons.
  change (keepends (c :: (s ++ [LF]) ++ rest))
    with (if c =? LF then [LF] :: keepends ((s ++ [LF]) ++ rest)
          else match keepends ((s ++ [LF]) ++ rest) with
               | [] => [[c]]
               | x :: xs => (c :: x) :: xs
               end).
  destruct (N.eqb_spec c LF) as [->|_]; [done|]. by rewrite IH.
Qed.

Lemma keepends_lines (xs : list str) :
  Forall (λ s, LF ∉ s) xs →
  keepends (mjoin ((λ s, s ++ [LF]) <$> xs)) = (λ s, s ++ [LF]) <$> xs.
Proof.
  induction 1 as [|s xs Hs _ IH]; [done|].
  rewrite fmap_cons.
  change (mjoin ((s ++ [LF]) :: ((λ s, s ++ [LF]) <$> xs)))
    with ((s ++ [LF]) ++ mjoin ((λ s, s ++ [LF]) <$> xs)).
  by rewrite keepends_line, IH.
Qed.

Lemma lstrip_snoc_space (s : str) (c : N) :
  isspace c = true →
  lstrip (s ++ [c]) = match lstrip s with [] => [] | _ => lstrip s ++ [c] end.
Proof.
  intros Hc. induction s as [|a s IH]; simpl; [by rewrite Hc|].
  by destruct (isspace a).
Qed.

Lemma rstrip_snoc_space (s : str) (c : N) :
  isspace c = true → rstrip (s ++ [c]) = rstrip s.
Proof. intros Hc. unfold rstrip. rewrite reverse_snoc. simpl. by rewrite Hc. Qed.

(** The line feed that ends a line is stripped with the rest. *)
Lemma strip_line (s : str) : strip (s ++ [LF]) = strip s.
Proof.
  unfold strip. rewrite lstrip_snoc_space by done.
  destruct (lstrip s) as [|a t] eqn:Hs; [done|].
  by rewrite rstrip_snoc_space.
Qed.

Lemma no_CR_in_lines (xs : list str) :
  Forall (λ s, CR ∉ s) xs → CR ∉ mjoin ((λ s, s ++ [LF]) <$> xs).
Proof.
  induction 1 as [|s xs Hs _ IH]; [by apply not_elem_of_nil|].
  rewrite fmap_cons.
  change (mjoin ((s ++ [LF]) :: ((λ s, s ++ [LF]) <$> xs)))
    with ((s ++ [LF]) ++ mjoin ((λ s, s ++ [LF]) <$> xs)).
  rewrite !elem_of_app, list_elem_of_singleton. intros [[?|?]|?]; done.
Qed.

Lemma lines_read_back (xs : list str) :
  Forall process_cves.read_back_as_is xs →
  (λ f, normpath (strip f)) <$> ((λ s, s ++ [LF]) <$> xs) = xs.
Proof.
  induction 1 as [|s xs (Hs & _ & _) _ IH]; [done|].
  rewrite !fmap_cons, strip_line, Hs. by f_equal.
Qed.

(** Writing a non-empty list of such paths, one per line, and loading
    the text gives the set of the paths. *)
Lemma load_printed_lines (xs : list str) :
  xs ≠ [] → Forall process_cves.read_back_as_is xs →
  process_cves.load_compiled_files (print_lines xs) = list_to_set xs.
Proof.
  intros Hne Hxs. unfold process_cves.load_compiled_files, readlines.
  rewrite print_lines_nonempty by done.
  rewrite universal_newlines_no_CR.
  - rewrite keepends_lines
      by (eapply Forall_impl; [done|]; by intros s (_ & ? & _)).
    by rewrite lines_read_back.
  - apply no_CR_in_lines. eapply Forall_impl; [done|]. by intros s (_ & _ & ?).
Qed.

End text_file_properties.

Section round_trip.
Local Opaque Py.lit.
Import Py extract_sources.
Variable E : env.

(** C3, amended. For a non-empty list of paths, each without a line
    break and left as it is by stripping and [normpath], a write that
    goes through leaves a file whose text the loading step of the
    correlator reads back as the set of those paths. *)
Theorem write_then_load (sources : loc) (dir : str) (w : world)
    (xs : list str) :
  heap w !! sources = Some xs →
  xs ≠ [] →
  Forall process_cves.read_back_as_is xs →
  can_makedirs E (abspath (getcwd E) dir) = true →
  can_write E (output_file_in E dir) = true →
  ∃ w' content,
    write_sources E sources dir w = (Ok tt, w')
    ∧ files w' !! output_file_in E dir = Some content
    ∧ process_cves.load_compiled_files content = list_to_set xs.
Proof.
  intros Hxs Hne Hok Hdir Hfile. unfold output_file_in in *.
  unfold write_sources, open_for_writing, print_to_file, logging. run.
  rewrite Hdir, Hfile. simpl.
  eexists _, _. split; [done|]. simpl. split; [apply lookup_insert_eq|].
  replace (alter sort sources (heap w) !!! sources) with (sort xs)
    by (unfold lookup_total, map_lookup_total;
        by rewrite lookup_alter_eq, Hxs).
  rewrite load_printed_lines.
  - apply list_to_set_perm_L, sort_Permutation.
  - intros Hnil. apply Hne, Permutation_nil_r.
    rewrite <- Hnil. symmetry. apply sort_Permutation.
  - by rewrite (sort_Permutation xs).
Qed.

End round_trip.

Section extract_sources_concrete.
Import Py extract_sources Scenarios.

Lemma normalize_source_path_outside_build_root_witness :
  let E := build_in_k [] [] in
  startswith (strip (lit "/usr/include/stdio.h")) (CUR_DIR E) = false
  ∧ normalize_source_path E (lit "/usr/include/stdio.h") no_files
    = (Ok [], add_log WARNING
                (lit "Found anomalous source file path "
                 ++ strip (lit "/usr/include/stdio.h")) no_files).
Proof.
  split; [by vm_compute|].
  apply normalize_source_path_outside_build_root. by vm_compute.
Defined.

(** C2 fails on this run: with the build root [/k], the line [/kx/a.c]
    passes the prefix test, keeps its prefix, and the absolute path is
    in the extracted list. *)
Theorem extract_sources_keeps_absolute_path :
  let E := build_in_k [] [("vmlinux", exits_ok ["/kx/a.c"])] in
  CUR_DIR E = lit "/k"
  ∧ (extract_sources E no_files).1 = Ok [lit "/kx/a.c"]
  ∧ isabs (lit "/kx/a.c") = true.
Proof. by vm_compute. Qed.

Lemma extract_sources_no_duplicates_witness :
  let E := build_in_k ["drivers/net/e1000.ko"]
             [("vmlinux", exits_ok ["/k/a.c"; "/k/./a.c"; "/k/a.c"]);
              ("drivers/net/e1000.ko", exits_ok ["/k/a.c"; "<built-in>"])] in
  (extract_sources E no_files).1 = Ok [lit "a.c"]
  ∧ count_occ (λ a b, decide (a = b)) [lit "a.c"] (lit "a.c") = 1%nat.
Proof.
  intros E. split; [by vm_compute|].
  destruct (extract_sources E no_files) as [r w'] eqn:Hrun.
  assert (Hr : r = Ok [lit "a.c"])
    by (change r with (r, w').1; rewrite <- Hrun; by vm_compute).
  subst r.
  apply (proj2 (extract_sources_no_duplicates E no_files [lit "a.c"] w' Hrun)
           (lit "drivers/net/e1000.ko")
           {| returncode := 0;
              stdout := mjoin ((λ l, ascii_bytes l ++ [x0a])
                               <$> ["/k/a.c"; "<built-in>"]) |}
           (lit "/k/a.c" ++ [LF] ++ lit "<built-in>" ++ [LF])
           (lit "/k/a.c") (lit "a.c") no_files no_files).
  - apply (bool_decide_unpack _). by vm_compute.
  - by vm_compute.
  - by vm_compute.
  - apply (bool_decide_unpack _). by vm_compute.
  - by vm_compute.
Defined.

Lemma main_tool_failure_witness :
  let E := build_in_k ["a.ko"; "b.ko"; "c.ko"]
             [("vmlinux", exits_ok ["/k/init/main.c"]);
              ("a.ko", exits_ok ["/k/a.c"]);
              ("b.ko", exits_with 1);
              ("c.ko", exits_ok ["/k/c.c"])] in
  ∃ code w', main E to_out no_files = (Raise (SystemExit code), w')
             ∧ files w' = files no_files ∧ heap w' = heap no_files.
Proof.
  intros E.
  apply (main_tool_failure E to_out no_files no_files (lit "b.ko")
           {| returncode := 1; stdout := [] |}); [|done..].
  apply (bool_decide_unpack _). by vm_compute.
Defined.

Lemma write_sources_sorts_argument_witness :
  let E := build_in_k [] [] in
  heap (write_sources E 0%nat (lit "out") (one_list ["b.c"; "a.c"])).2 !! 0%nat
  = Some [lit "a.c"; lit "b.c"].
Proof.
  intros E.
  apply (write_sources_sorts_argument E 0%nat (lit "out")
           (one_list ["b.c"; "a.c"]) [lit "b.c"; lit "a.c"]).
  by vm_compute.
Defined.

(** C3, as stated, fails. For the empty set the file holds one empty
    line, which is loaded as the one path [.]. For the set of the one
    path [ a.c], which extraction keeps for the line [/k/ a.c], the
    space is stripped on loading and the path [a.c] comes back. *)
Lemma write_then_load_differs :
  let E := build_in_k [] [] in
  (∃ w', write_sources E 0%nat (lit "out") (one_list []) = (Ok tt, w')
         ∧ files w' !! lit "/k/out/sources.txt" = Some [LF]
         ∧ lit "." ∈ process_cves.load_compiled_files [LF]
         ∧ process_cves.load_compiled_files [LF] ≠ list_to_set [])
  ∧ (normalize_source_path E (lit "/k/ a.c") no_files).1 = Ok (lit " a.c")
  ∧ (∃ w', write_sources E 0%nat (lit "out") (one_list [" a.c"]) = (Ok tt, w')
           ∧ files w' !! lit "/k/out/sources.txt" = Some (lit " a.c" ++ [LF])
           ∧ (lit " a.c"
              ∉ process_cves.load_compiled_files (lit " a.c" ++ [LF]))
           ∧ process_cves.load_compiled_files (lit " a.c" ++ [LF])
             ≠ list_to_set [lit " a.c"]).
Proof.
  split.
  - eexists. split; [by vm_compute|]. split; [by vm_compute|].
    assert (Hin : lit "." ∈ process_cves.load_compiled_files [LF])
      by (apply (bool_decide_unpack _); by vm_compute).
    split; [done|]. intros Heq. rewrite Heq in Hin. set_solver.
  - split; [by vm_compute|].
    eexists. split; [by vm_compute|]. split; [by vm_compute|].
    assert (Hout : lit " a.c"
                   ∉ process_cves.load_compiled_files (lit " a.c" ++ [LF]))
      by (apply (bool_decide_unpack _); by vm_compute).
    split; [done|]. intros Heq. rewrite Heq in Hout. set_solver.
Qed.

Lemma write_then_load_witness :
  let E := build_in_k [] [] in
  let xs := [lit "kernel/sched/core.c"; lit "drivers/net/e1000.c"] in
  ∃ w' content,
    write_sources E 0%nat (lit "out")
      (one_list ["kernel/sched/core.c"; "drivers/net/e1000.c"]) = (Ok tt, w')
    ∧ files w' !! output_file_in E (lit "out") = Some content
    ∧ process_cves.load_compiled_files content = list_to_set xs.
Proof.
  intros E xs.
  apply (write_then_load E 0%nat (lit "out")
           (one_list ["kernel/sched/core.c"; "drivers/net/e1000.c"]) xs);
    try done.
  repeat constructor; try by vm_compute.
  all: apply (bool_decide_unpack _); by vm_compute.
Defined.

End extract_sources_concrete.

Section process_cves_properties.
Local Opaque Py.lit.
Import Py process_cves.
Variable E : env.

(** A reference that is not a fix-commit reference is passed over. *)
Lemma evaluate_refs_skip ref rest compiled w :
  startswith (url ref) FIX_COMMIT_PREFIX = false →
  evaluate_refs E (ref :: rest) compiled w = evaluate_refs E rest compiled w.
Proof. intros H. simpl. by rewrite H. Qed.

(** A fix-commit reference whose query exits non-zero costs one query
    and the loop goes on with the next reference. *)
Lemma evaluate_refs_continue ref rest compiled w p :
  startswith (url ref) FIX_COMMIT_PREFIX = true →
  git_show E (commit_of (url ref)) = Ok p →
  returncode p ≠ 0%Z →
  evaluate_refs E (ref :: rest) compiled w
  = evaluate_refs E rest compiled
      {| printed := printed w;
         queries := queries w ++ [commit_of (url ref)] |}.
Proof.
  intros Hpre Hgit Hrc. simpl. rewrite Hpre.
  unfold subprocess_run, record_query. run. rewrite Hgit.
  by rewrite bool_decide_true.
Qed.

Lemma evaluate_refs_skip_all before rest compiled w :
  Forall (λ r, startswith (url r) FIX_COMMIT_PREFIX = false) before →
  evaluate_refs E (before ++ rest) compiled w = evaluate_refs E rest compiled w.
Proof.
  induction 1 as [|r before Hr _ IH]; [done|].
  rewrite <- app_comm_cons, evaluate_refs_skip; done.
Qed.

(** C8. A record none of whose reference URLs starts with the fix-commit
    prefix is answered with false, and the world is as before: nothing
    printed, no query sent to git. *)
Theorem evaluate_cve_no_fix_reference (cve : Cve) (compiled : gset str)
    (w : world) :
  Forall (λ r, startswith (url r) FIX_COMMIT_PREFIX = false) (references cve) →
  evaluate_cve E cve compiled w = (Ok false, w).
Proof.
  intros H. unfold evaluate_cve.
  rewrite <- (app_nil_r (references cve)).
  by rewrite evaluate_refs_skip_all.
Qed.

(** C7. When the feed answers with a status other than 200, [fetch_cves]
    returns the empty list without raising, and [main] then prints a
    count of zero after the failure notice, queries git for nothing and
    ends normally. *)
Theorem main_feed_not_200 (w : world) (response : Response) (content : str) :
  requests_get E = Ok response →
  status_code response ≠ 200%Z →
  open_compiled_files E = Ok content →
  fetch_cves E w
  = (Ok [], {| printed := printed w ++ [lit "Failed to fetch CVEs"];
               queries := queries w |})
  ∧ main E w
    = (Ok tt, {| printed := printed w ++ [lit "Failed to fetch CVEs"]
                              ++ [lit "We care about 0 CVEs"];
                 queries := queries w |}).
Proof.
  intros Hget Hstatus Hopen.
  assert (Hfetch : fetch_cves E w
    = (Ok [], {| printed := printed w ++ [lit "Failed to fetch CVEs"];
                 queries := queries w |})).
  { unfold fetch_cves, print. run. rewrite Hget.
    by rewrite bool_decide_true. }
  split; [done|].
  unfold main. run. rewrite Hopen, Hfetch.
  unfold print. run. by rewrite <- app_assoc.
Qed.

End process_cves_properties.

Section process_cves_verdict.
Local Opaque Py.lit.
Import Py Verdict process_cves.
Variable E : env.

(** The lines of a query's output, decoded and stripped, when every line
    is valid UTF-8: the comprehension has no other effect. *)
Lemma affected_files_decoded (ls : list bytes) (lines : list str) (w : world) :
  mapM utf8_decode ls = Some lines →
  comprehension ls affected_file w = (Ok (strip <$> lines), w).
Proof.
  revert lines. induction ls as [|l ls IH]; intros lines Hdec.
  - by injection Hdec as <-.
  - rewrite mapM_Some in Hdec. inversion Hdec as [|? s ? lines' Hl Hls]; subst.
    apply mapM_Some in Hls. specialize (IH _ Hls).
    simpl. rewrite (bind_Ok _ _ w w (strip s)).
    + by rewrite (bind_Ok _ _ w w (strip <$> lines')).
    + unfold affected_file, decode. by rewrite Hl.
Qed.

Lemma existsb_elem_of (compiled : gset str) (fs : list str) :
  existsb (λ f, bool_decide (f ∈ compiled)) fs = true
  ↔ ∃ f, f ∈ fs ∧ f ∈ compiled.
Proof.
  rewrite existsb_exists. split.
  - intros (f & Hin & Hf). exists f. split; [by apply list_elem_of_In|].
    by apply bool_decide_eq_true in Hf.
  - intros (f & Hin & Hf). exists f. split; [by apply list_elem_of_In|].
    by apply bool_decide_eq_true.
Qed.

(** Fix-commit references whose queries all exit non-zero, mixed with
    other references, are all passed: only the queries remain. *)
Lemma evaluate_refs_pass_unresolvable before rest compiled w :
  Forall (λ r, startswith (url r) FIX_COMMIT_PREFIX = true →
               ∃ q, git_show E (commit_of (url r)) = Ok q
                    ∧ returncode q ≠ 0%Z) before →
  ∃ qs, evaluate_refs E (before ++ rest) compiled w
        = evaluate_refs E rest compiled
            {| printed := printed w; queries := queries w ++ qs |}.
Proof.
  intros H. revert w. induction H as [|r before Hr _ IH]; intros w.
  - exists []. rewrite app_nil_r. by destruct w.
  - rewrite <- app_comm_cons.
    destruct (startswith (url r) FIX_COMMIT_PREFIX) eqn:Hpre.
    + destruct (Hr eq_refl) as (q & Hq & Hrc).
      rewrite (evaluate_refs_continue E _ _ _ _ q) by done.
      destruct (IH {| printed := printed w;
                      queries := queries w ++ [commit_of (url r)] |})
        as (qs & ->).
      exists (commit_of (url r) :: qs). simpl. by rewrite <- app_assoc.
    + rewrite evaluate_refs_skip by done. apply IH.
Qed.

(** When the first fix-commit reference whose query exits with zero
    (every fix-commit reference before it exits non-zero) printed valid
    UTF-8, the verdict is true exactly when some line of that output,
    stripped of surrounding whitespace, is an element of the
    compiled-file set. *)
Lemma evaluate_cve_resolvable (name : str) (before : list Reference)
    (ref : Reference) (rest : list Reference) (compiled : gset str)
    (w : world) (p : CompletedProcess) (lines : list str) :
  Forall (λ r, startswith (url r) FIX_COMMIT_PREFIX = true →
               ∃ q, git_show E (commit_of (url r)) = Ok q
                    ∧ returncode q ≠ 0%Z) before →
  startswith (url ref) FIX_COMMIT_PREFIX = true →
  git_show E (commit_of (url ref)) = Ok p →
  returncode p = 0%Z →
  mapM utf8_decode (bytes_splitlines (stdout p)) = Some lines →
  ∃ verdict : bool,
    (evaluate_cve E {| id := name; references := before ++ ref :: rest |}
       compiled w).1 = Ok verdict
    ∧ (verdict = true ↔ ∃ f, f ∈ strip <$> lines ∧ f ∈ compiled).
Proof.
  intros Hbefore Hpre Hgit Hrc Hdec. unfold evaluate_cve. simpl.
  destruct (evaluate_refs_pass_unresolvable before (ref :: rest) compiled w
              Hbefore) as (qs & ->).
  exists (existsb (λ f, bool_decide (f ∈ compiled)) (strip <$> lines)).
  split; [|apply existsb_elem_of].
  simpl. rewrite Hpre. unfold subprocess_run, record_query. run.
  rewrite Hgit, Hrc. simpl.
  by rewrite (affected_files_decoded _ lines).
Qed.

(** C4. For a record with a resolvable fix commit (the first
    fix-commit reference whose query exits with zero, every fix-commit
    reference before it exiting non-zero) whose query printed valid
    UTF-8 and, as git does, paths in normal form, and for the
    compiled-file set that [main] loads from the text of the file, the
    verdict is true exactly when the changed files and the compiled
    files meet after both have been normalized in the same way, by
    stripping and [normpath]. *)
Theorem evaluate_cve_verdict_intersect (name : str)
    (before : list Reference) (ref : Reference) (rest : list Reference)
    (content : str) (w : world) (p : CompletedProcess) (lines : list str) :
  Forall (λ r, startswith (url r) FIX_COMMIT_PREFIX = true →
               ∃ q, git_show E (commit_of (url r)) = Ok q
                    ∧ returncode q ≠ 0%Z) before →
  startswith (url ref) FIX_COMMIT_PREFIX = true →
  git_show E (commit_of (url ref)) = Ok p →
  returncode p = 0%Z →
  mapM utf8_decode (bytes_splitlines (stdout p)) = Some lines →
  normal_paths lines →
  ∃ verdict : bool,
    (evaluate_cve E {| id := name; references := before ++ ref :: rest |}
       (load_compiled_files content) w).1 = Ok verdict
    ∧ (verdict = true ↔ intersect lines (readlines content)).
Proof.
  intros Hbefore Hpre Hgit Hrc Hdec Hnormal.
  destruct (evaluate_cve_resolvable name before ref rest
              (load_compiled_files content) w p lines Hbefore Hpre Hgit Hrc
              Hdec) as (verdict & Hrun & Hverdict).
  exists verdict. split; [done|]. rewrite Hverdict.
  unfold intersect, load_compiled_files.
  replace (normalized <$> lines) with (strip <$> lines)
    by (apply Forall_fmap_ext; by eapply Forall_impl).
  split.
  - intros (f & Hf & Hin) Hempty.
    apply (not_elem_of_empty (C:=gset str) f). rewrite <- Hempty.
    apply elem_of_intersection. split; [by apply elem_of_list_to_set|done].
  - intros Hmeet. apply set_choose in Hmeet as (f & Hf).
    apply elem_of_intersection in Hf as [Hf Hin].
    exists f. split; [by apply elem_of_list_to_set in Hf|done].
Qed.

(** C1, amended. When the query for the first fix-commit reference exits
    non-zero, that reference is skipped and the references after it are
    examined: the verdict is theirs, and it is false when each
    fix-commit reference among them exits non-zero as well. *)
Theorem evaluate_cve_first_unresolvable (name : str)
    (before : list Reference) (ref : Reference) (rest : list Reference)
    (compiled : gset str) (w : world) (p : CompletedProcess) :
  Forall (λ r, startswith (url r) FIX_COMMIT_PREFIX = false) before →
  startswith (url ref) FIX_COMMIT_PREFIX = true →
  git_show E (commit_of (url ref)) = Ok p →
  returncode p ≠ 0%Z →
  evaluate_cve E {| id := name; references := before ++ ref :: rest |}
    compiled w
  = evaluate_refs E rest compiled
      {| printed := printed w;
         queries := queries w ++ [commit_of (url ref)] |}
  ∧ (Forall (λ r, startswith (url r) FIX_COMMIT_PREFIX = true →
                  ∃ q, git_show E (commit_of (url r)) = Ok q
                       ∧ returncode q ≠ 0%Z) rest →
     (evaluate_cve E {| id := name; references := before ++ ref :: rest |}
        compiled w).1 = Ok false).
Proof.
  intros Hbefore Hpre Hgit Hrc.
  assert (Hstep : evaluate_cve E
            {| id := name; references := before ++ ref :: rest |} compiled w
          = evaluate_refs E rest compiled
              {| printed := printed w;
                 queries := queries w ++ [commit_of (url ref)] |}).
  { unfold evaluate_cve. simpl.
    rewrite evaluate_refs_skip_all by done.
    by apply evaluate_refs_continue with p. }
  split; [done|]. intros Hrest. rewrite Hstep.
  rewrite <- (app_nil_r rest).
  by destruct (evaluate_refs_pass_unresolvable rest [] compiled
                 {| printed := printed w;
                    queries := queries w ++ [commit_of (url ref)] |} Hrest)
    as (qs & ->).
Qed.

End process_cves_verdict.

Section process_cves_runs.
Import Py process_cves Scenarios.

Lemma evaluate_cve_no_fix_reference_witness :
  let cve := cve_with "CVE-C" ["https://example.org/advisory"] in
  let E := correlator 200 [cve] [] [] in
  Forall (λ r, startswith (url r) FIX_COMMIT_PREFIX = false) (references cve)
  ∧ evaluate_cve E cve two_compiled quiet = (Ok false, quiet).
Proof.
  split; [by repeat constructor|].
  apply evaluate_cve_no_fix_reference. by repeat constructor.
Defined.

Lemma main_feed_not_200_witness :
  let E := correlator 503 [] [] ["drivers/net/e1000.c"] in
  main E quiet
  = (Ok tt, {| printed := [lit "Failed to fetch CVEs";
                            lit "We care about 0 CVEs"];
               queries := [] |}).
Proof.
  intros E.
  apply (main_feed_not_200 E quiet
           {| status_code := 503; text := [] |}
           (text_of ["drivers/net/e1000.c"])); done.
Defined.

Lemma evaluate_cve_verdict_intersect_witness :
  let cve := cve_with "CVE-A" ["https://git.kernel.org/stable/c/abc"] in
  let E := correlator 200 [cve]
             [("abc", exits_ok ["drivers/net/e1000.c"; "mm/slab.c"])]
             ["./drivers/net//e1000.c"; "kernel/sched/core.c"] in
  let content := text_of ["./drivers/net//e1000.c"; "kernel/sched/core.c"] in
  ∃ verdict : bool,
    (evaluate_cve E cve (load_compiled_files content) quiet).1 = Ok verdict
    ∧ (verdict = true
       ↔ Verdict.intersect [lit "drivers/net/e1000.c"; lit "mm/slab.c"]
           (readlines content)).
Proof.
  intros cve E content.
  apply (evaluate_cve_verdict_intersect E (lit "CVE-A") []
           {| url := lit "https://git.kernel.org/stable/c/abc" |} []
           content quiet
           {| returncode := 0;
              stdout := ascii_bytes "drivers/net/e1000.c" ++ [x0a]
                        ++ ascii_bytes "mm/slab.c" ++ [x0a] |}
           [lit "drivers/net/e1000.c"; lit "mm/slab.c"]).
  - constructor.
  - by vm_compute.
  - by vm_compute.
  - done.
  - by vm_compute.
  - repeat constructor; by vm_compute.
Defined.

(** C1, as stated, fails: the first fix-commit reference names a commit
    whose query exits with 128; the second one is queried all the same
    and decides the verdict, which is true. *)
Lemma evaluate_cve_later_reference_examined :
  let cve := cve_with "CVE-M" ["https://git.kernel.org/stable/c/bad";
                               "https://git.kernel.org/stable/c/good"] in
  let E := correlator 200 [cve]
             [("bad", exits_with 128); ("good", exits_ok ["a.c"])] ["a.c"] in
  git_show E (lit "bad") = exits_with 128
  ∧ evaluate_cve E cve {[ lit "a.c" ]} quiet
    = (Ok true, {| printed := []; queries := [lit "bad"; lit "good"] |}).
Proof. split; [done|]. by vm_compute. Qed.

Lemma evaluate_cve_first_unresolvable_witness :
  let refs := [ {| url := lit "https://git.kernel.org/stable/c/good" |} ] in
  let cve := cve_with "CVE-M" ["https://git.kernel.org/stable/c/bad";
                               "https://git.kernel.org/stable/c/good"] in
  let E := correlator 200 [cve]
             [("bad", exits_with 128); ("good", exits_ok ["a.c"])] ["a.c"] in
  evaluate_cve E cve {[ lit "a.c" ]} quiet
  = evaluate_refs E refs {[ lit "a.c" ]}
      {| printed := []; queries := [lit "bad"] |}.
Proof.
  intros refs cve E.
  apply (evaluate_cve_first_unresolvable E (lit "CVE-M") []
           {| url := lit "https://git.kernel.org/stable/c/bad" |} refs
           {[ lit "a.c" ]} quiet {| returncode := 128; stdout := [] |});
    done.
Defined.

End process_cves_runs.

Section strip_facts.
Import Py.

Lemma lstrip_snoc (s : str) (c : N) :
  lstrip (s ++ [c])
  = match lstrip s with [] => lstrip [c] | r => r ++ [c] end.
Proof.
  induction s as [|a s IH]; [done|]. simpl.
  destruct (isspace a); [done|done].
Qed.

Lemma rstrip_cons (c : N) (s : str) :
  rstrip (c :: s)
  = match rstrip s with
    | [] => if isspace c then [] else [c]
    | r => c :: r
    end.
Proof.
  unfold rstrip. rewrite reverse_cons, lstrip_snoc.
  destruct (lstrip (reverse s)) as [|a t] eqn:Ht.
  - simpl. by destruct (isspace c).
  - rewrite reverse_snoc. 
    destruct (reverse (a :: t)) as [|b u] eqn:Hr; [|done].
    apply (f_equal reverse) in Hr. rewrite reverse_involutive in Hr. done.
Qed.

Lemma lstrip_idemp (s : str) : lstrip (lstrip s) = lstrip s.
Proof.
  induction s as [|a s IH]; [done|]. simpl.
  destruct (isspace a) eqn:Ha; [done|]. simpl. by rewrite Ha.
Qed.

Lemma rstrip_idemp (s : str) : rstrip (rstrip s) = rstrip s.
Proof. unfold rstrip. by rewrite reverse_involutive, lstrip_idemp. Qed.

(** A list that starts with no whitespace keeps its start when its end
    is stripped. *)
Lemma lstrip_rstrip (s : str) : lstrip s = s → lstrip (rstrip s) = rstrip s.
Proof.
  destruct s as [|c s]; [done|]. simpl.
  destruct (isspace c) eqn:Hc.
  - intros H. apply (f_equal length) in H. simpl in H.
    assert (length (lstrip s) ≤ length s)%nat; [|lia].
    clear. induction s as [|a s IH]; [done|]. simpl.
    destruct (isspace a); simpl; lia.
  - intros _. rewrite rstrip_cons. destruct (rstrip s); rewrite ?Hc; simpl; by rewrite Hc.
Qed.

Lemma strip_idemp (s : str) : strip (strip s) = strip s.
Proof.
  unfold strip. rewrite (lstrip_rstrip (lstrip s)) by apply lstrip_idemp.
  apply rstrip_idemp.
Qed.

Lemma lstrip_suffix (s : str) : lstrip s `suffix_of` s.
Proof.
  induction s as [|a s IH]; [done|].
  change (lstrip (a :: s)) with (if isspace a then lstrip s else a :: s).
  destruct (isspace a); [|by exists []].
  destruct IH as [k Hk]. exists (a :: k). simpl. by f_equal.
Qed.

Lemma elem_of_lstrip (s : str) (c : N) : c ∈ lstrip s → c ∈ s.
Proof. intros H. destruct (lstrip_suffix s) as [k ->]. set_solver. Qed.

Lemma elem_of_strip (s : str) (c : N) : c ∈ strip s → c ∈ s.
Proof.
  unfold strip, rstrip. rewrite elem_of_reverse. intros H%elem_of_lstrip.
  rewrite elem_of_reverse in H. by apply elem_of_lstrip.
Qed.

Lemma lstrip_spaces_app (ws s : str) :
  Forall (λ c, isspace c = true) ws → lstrip (ws ++ s) = lstrip s.
Proof. induction 1 as [|c ws Hc _ IH]; [done|]. simpl. by rewrite Hc. Qed.

Lemma rstrip_app_spaces (s ws : str) :
  Forall (λ c, isspace c = true) ws → rstrip (s ++ ws) = rstrip s.
Proof.
  intros Hws. unfold rstrip. rewrite reverse_app, lstrip_spaces_app; [done|].
  by apply Forall_reverse.
Qed.

Lemma lstrip_app_spaces (s ws : str) :
  Forall (λ c, isspace c = true) ws →
  lstrip (s ++ ws) = match lstrip s with [] => [] | r => r ++ ws end.
Proof.
  intros Hws. induction s as [|a s IH]; simpl.
  - rewrite <- (app_nil_r ws). by rewrite lstrip_spaces_app.
  - by destruct (isspace a).
Qed.

(** Whitespace added around a string is stripped with the rest. *)
Lemma strip_padded (ws1 s ws2 : str) :
  Forall (λ c, isspace c = true) ws1 →
  Forall (λ c, isspace c = true) ws2 →
  strip (ws1 ++ s ++ ws2) = strip s.
Proof.
  intros H1 H2. unfold strip.
  rewrite lstrip_spaces_app, lstrip_app_spaces by done.
  destruct (lstrip s) as [|a t]; [done|]. by rewrite rstrip_app_spaces.
Qed.

End strip_facts.

Section split_facts.
Import Py.
Variable c0 : N.

Lemma split_cons (c : N) (s : str) :
  split c0 (c :: s)
  = if c =? c0 then [] :: split c0 s
    else match split c0 s with
         | [] => [[c]]
         | x :: xs => (c :: x) :: xs
         end.
Proof. done. Qed.

Lemma split_not_nil (s : str) : split c0 s ≠ [].
Proof.
  induction s as [|c s IH]; [done|]. rewrite split_cons.
  destruct (c =? c0); [done|]. by destruct (split c0 s).
Qed.

Lemma join_cons (x y : str) (l : list str) :
  join [c0] (x :: y :: l) = x ++ [c0] ++ join [c0] (y :: l).
Proof. done. Qed.

(** Joining the pieces with the separator gives the string back. *)
Lemma join_split (s : str) : join [c0] (split c0 s) = s.
Proof.
  induction s as [|c s IH]; [done|]. rewrite split_cons.
  destruct (N.eqb_spec c c0) as [->|Hc].
  - pose proof (split_not_nil s). destruct (split c0 s) as [|y l]; [done|].
    rewrite join_cons. simpl. by rewrite <- IH.
  - pose proof (split_not_nil s). destruct (split c0 s) as [|y l]; [done|].
    destruct l as [|z l].
    + simpl in *. by rewrite IH.
    + rewrite join_cons in *. simpl. by rewrite <- IH.
Qed.

Lemma split_no_sep (s : str) : Forall (λ x, c0 ∉ x) (split c0 s).
Proof.
  induction s as [|c s IH].
  - repeat constructor. apply not_elem_of_nil.
  - rewrite split_cons. destruct (N.eqb_spec c c0) as [->|Hc].
    + constructor; [apply not_elem_of_nil|done].
    + pose proof (split_not_nil s). destruct (split c0 s) as [|y l]; [done|].
      inversion IH; subst. constructor; [|done].
      rewrite not_elem_of_cons. split; [congruence|done].
Qed.

Lemma split_elem_of (s x : str) (c : N) : x ∈ split c0 s → c ∈ x → c ∈ s.
Proof.
  revert x. induction s as [|c' s IH]; intros x.
  - simpl. intros ->%list_elem_of_singleton. by intros ?%elem_of_nil.
  - rewrite split_cons. destruct (N.eqb_spec c' c0) as [->|Hc].
    + intros [->|Hx]%elem_of_cons; [by intros ?%elem_of_nil|].
      intros Hin. right. by apply (IH x).
    + pose proof (split_not_nil s). destruct (split c0 s) as [|y l]; [done|].
      intros [->|Hx]%elem_of_cons.
      * intros [->|Hin]%elem_of_cons; [left|right].
        apply (IH y); [left|done].
      * intros Hin. right. apply (IH x); [by right|done].
Qed.

Lemma split_app_sep (x rest : str) :
  c0 ∉ x → split c0 (x ++ c0 :: rest) = x :: split c0 rest.
Proof.
  induction x as [|c x IH]; intros Hx.
  - simpl. by rewrite N.eqb_refl.
  - apply not_elem_of_cons in Hx as [Hc Hx].
    rewrite <- app_comm_cons, split_cons, IH by done.
    destruct (N.eqb_spec c c0) as [Heq|?]; [by destruct Hc|done].
Qed.

Lemma split_one (x : str) : c0 ∉ x → split c0 x = [x].
Proof.
  induction x as [|c x IH]; intros Hx; [done|].
  apply not_elem_of_cons in Hx as [Hc Hx]. rewrite split_cons, IH by done.
  destruct (N.eqb_spec c c0) as [Heq|?]; [by destruct Hc|done].
Qed.

(** Splitting a join of pieces that hold no separator gives the pieces. *)
Lemma split_join (l : list str) :
  l ≠ [] → Forall (λ x, c0 ∉ x) l → split c0 (join [c0] l) = l.
Proof.
  induction l as [|x [|y l] IH]; intros Hne Hl; [done|..].
  - inversion Hl; subst. by apply split_one.
  - inversion Hl; subst. rewrite join_cons. simpl.
    rewrite split_app_sep by done. f_equal. by apply IH.
Qed.

End split_facts.

Section normpath_facts.
Import Py Normal.

Lemma normpath_unfold (p : str) :
  normpath p
  = if bool_decide (p = []) then curdir
    else let out := mjoin (replicate (slashes p) sep) ++ join sep (comps p) in
         if bool_decide (out = []) then curdir else out.
Proof. done. Qed.

Lemma pardir_kept : kept_comp pardir.
Proof. split; [done|]. split; [done|]. apply (bool_decide_unpack _). by vm_compute. Qed.

Lemma normal_nil n : normal n [].
Proof. split; [constructor|]. by intros [|??] ?. Qed.

Lemma normal_snoc_other n acc c :
  kept_comp c → c ≠ pardir → normal n acc → normal n (acc ++ [c]).
Proof.
  intros Hc Hne [Hall Hpar]. split.
  - apply Forall_app. split; [done|by constructor].
  - intros l1 l2. destruct l2 as [|z l2 _] using rev_ind.
    + intros [_ ->]%app_inj_tail. done.
    + rewrite app_comm_cons, app_assoc. intros [-> _]%app_inj_tail.
      by apply (Hpar l1 l2).
Qed.

Lemma normal_snoc_pardir n acc :
  (n = 0%nat ∧ acc = []) ∨ last acc = Some pardir →
  normal n acc → normal n (acc ++ [pardir]).
Proof.
  intros Hcond [Hall Hpar]. split.
  - apply Forall_app. split; [done|]. constructor; [apply pardir_kept|done].
  - intros l1 l2. destruct l2 as [|z l2 _] using rev_ind.
    + intros [-> _]%app_inj_tail. destruct Hcond as [[-> ->]|Hlast].
      * by split.
      * apply last_Some in Hlast as [acc' ->].
        destruct (Hpar acc' [] eq_refl) as [-> Hacc].
        split; [done|]. apply Forall_app. split; [done|by constructor].
    + rewrite app_comm_cons, app_assoc. intros [-> _]%app_inj_tail.
      by apply (Hpar l1 l2).
Qed.

Lemma normal_removelast n acc : normal n acc → normal n (removelast acc).
Proof.
  destruct acc as [|z acc _] using rev_ind; [done|].
  rewrite removelast_last. intros [Hall Hpar]. split.
  - by apply Forall_app in Hall as [? _].
  - intros l1 l2 ->. apply (Hpar l1 (l2 ++ [z])).
    by rewrite <- app_assoc.
Qed.

Lemma normpath_step_normal n acc c :
  SLASH ∉ c → normal n acc → normal n (normpath_step n acc c).
Proof.
  intros Hc Hacc. unfold normpath_step.
  case_bool_decide as H1; [done|].
  destruct (decide (c = pardir)) as [->|Hne].
  - rewrite bool_decide_false by naive_solver. simpl.
    destruct (bool_decide (n = 0%nat) && bool_decide (acc = [])) eqn:H2.
    { apply andb_true_iff in H2 as [?%bool_decide_eq_true ?%bool_decide_eq_true].
      apply normal_snoc_pardir; auto. }
    simpl.
    destruct (bool_decide (acc ≠ []) && bool_decide (last acc = Some pardir))
      eqn:H3.
    { apply andb_true_iff in H3 as [_ ?%bool_decide_eq_true].
      apply normal_snoc_pardir; auto. }
    case_bool_decide; [by apply normal_removelast|done].
  - rewrite bool_decide_true by done. simpl.
    apply normal_snoc_other; [|done..]. split; [naive_solver|].
    split; [naive_solver|done].
Qed.

Lemma foldl_normpath_step_normal n acc cs :
  Forall (λ c, SLASH ∉ c) cs → normal n acc →
  normal n (foldl (normpath_step n) acc cs).
Proof.
  intros Hcs. revert acc. induction Hcs as [|c cs Hc _ IH]; intros acc Hacc;
    [done|].
  simpl. by apply IH, normpath_step_normal.
Qed.

Lemma comps_normal (p : str) : normal (slashes p) (comps p).
Proof.
  apply foldl_normpath_step_normal; [apply split_no_sep|apply normal_nil].
Qed.

(** The loop leaves components in normal form as they are. *)
Lemma foldl_normpath_step_fixed n acc l :
  normal n (acc ++ l) → foldl (normpath_step n) acc l = acc ++ l.
Proof.
  revert acc. induction l as [|c l IH]; intros acc Hn.
  - by rewrite app_nil_r.
  - simpl. assert (Hstep : normpath_step n acc c = acc ++ [c]).
    { destruct Hn as [Hall Hpar].
      apply Forall_app in Hall as [_ Hall].
      apply Forall_cons in Hall as [(Hc1 & Hc2 & _) _].
      unfold normpath_step.
      rewrite bool_decide_false by (intros [?|?]; done).
      destruct (decide (c = pardir)) as [->|Hne].
      - destruct (Hpar acc l eq_refl) as [-> Hacc].
        assert (Hlast : acc = [] ∨ (acc ≠ [] ∧ last acc = Some pardir)).
        { destruct (last acc) as [z|] eqn:Hz.
          - right. apply last_Some in Hz as [acc' ->].
            apply Forall_app in Hacc as [_ Hz]. inversion Hz; subst.
            split; [by destruct acc'|done].
          - left. by apply last_None. }
        destruct Hlast as [->|[Hne Hl]]; [done|].
        rewrite (bool_decide_true (acc ≠ [])), (bool_decide_true (last acc = _))
          by done.
        by rewrite orb_true_r.
      - by rewrite bool_decide_true. }
    rewrite Hstep. rewrite IH; rewrite <- app_assoc; done.
Qed.


Lemma startswith_nil (s : str) : startswith s [] = true.
Proof. by destruct s. Qed.

Lemma slashes_cases (p : str) :
  slashes p = 0%nat ∨ slashes p = 1%nat ∨ slashes p = 2%nat.
Proof.
  unfold slashes. destruct (startswith p sep); [|by left].
  destruct (_ && _); auto.
Qed.

(** A join of kept components does not start with a slash. *)
Lemma join_kept_head (l : list str) :
  Forall kept_comp l → startswith (join sep l) sep = false.
Proof.
  destruct 1 as [|x l (Hx & _ & Hs) _]; [done|].
  destruct x as [|c x]; [done|].
  apply not_elem_of_cons in Hs as [Hc _].
  assert (Hjoin : ∃ t, join sep ((c :: x) :: l) = c :: t)
    by (destruct l; simpl; eauto).
  destruct Hjoin as [t ->]. simpl.
  destruct (N.eqb_spec c SLASH) as [->|_]; done.
Qed.

Lemma join_kept_nil (l : list str) :
  Forall kept_comp l → join sep l = [] → l = [].
Proof.
  destruct 1 as [|x l (Hx & _) _]; [done|].
  destruct x as [|c x]; [done|]. by destruct l.
Qed.

Lemma foldl_normpath_step_skip n acc cs :
  foldl (normpath_step n) acc ([] :: cs) = foldl (normpath_step n) acc cs.
Proof. simpl. unfold normpath_step at 2. by rewrite bool_decide_true by auto. Qed.

(** What [normpath] returns for components in normal form behind [n]
    slashes: the same path. *)
Lemma normpath_of_normal (n : nat) (l : list str) :
  (n = 0 ∨ n = 1 ∨ n = 2)%nat → normal n l → (n ≠ 0%nat ∨ l ≠ []) →
  normpath (mjoin (replicate n sep) ++ join sep l)
  = mjoin (replicate n sep) ++ join sep l.
Proof.
  intros Hn Hl Hne. pose proof (join_kept_head l (proj1 Hl)) as Hhead.
  pose proof (join_kept_nil l (proj1 Hl)) as Hnil.
  set (J := join sep l) in *.
  assert (Hsplit : foldl (normpath_step n) [] (split SLASH J) = l).
  { destruct (decide (l = [])) as [->|Hl0]; [done|].
    unfold J, sep. rewrite (split_join SLASH l Hl0).
    - by apply (foldl_normpath_step_fixed n []).
    - eapply Forall_impl; [apply Hl|]. by intros c (_ & _ & ?). }
  assert (Hshape : slashes (mjoin (replicate n sep) ++ J) = n
                   ∧ comps (mjoin (replicate n sep) ++ J) = l
                   ∧ mjoin (replicate n sep) ++ J ≠ []).
  { unfold comps. destruct Hn as [-> | [-> | ->]].
    - assert (Hs : slashes J = 0%nat) by (unfold slashes; by rewrite Hhead).
      simpl. rewrite Hs. split; [done|]. split; [done|].
      destruct Hne as [?|Hne]; [done|]. intros HJ. by apply Hne, Hnil.
    - assert (Hs : slashes (SLASH :: J) = 1%nat).
      { unfold slashes. simpl in *. by rewrite ?startswith_nil, Hhead. }
      change (mjoin (replicate 1 sep) ++ J) with (SLASH :: J).
      rewrite Hs. split; [done|]. split; [|done].
      rewrite split_cons, N.eqb_refl. by rewrite foldl_normpath_step_skip.
    - assert (Hs : slashes (SLASH :: SLASH :: J) = 2%nat).
      { unfold slashes. simpl in *. by rewrite ?startswith_nil, Hhead. }
      change (mjoin (replicate 2 sep) ++ J) with (SLASH :: SLASH :: J).
      rewrite Hs. split; [done|]. split; [|done].
      rewrite !split_cons, N.eqb_refl. by rewrite !foldl_normpath_step_skip. }
  destruct Hshape as (Hs & Hc & Hout).
  rewrite normpath_unfold, bool_decide_false by done.
  simpl. rewrite Hs, Hc. fold J. by rewrite bool_decide_false.
Qed.

(** The shape of what [normpath] returns. *)
Lemma normpath_shape (p : str) :
  normpath p = curdir
  ∨ (normal (slashes p) (comps p)
     ∧ (slashes p ≠ 0%nat ∨ comps p ≠ [])
     ∧ normpath p = mjoin (replicate (slashes p) sep) ++ join sep (comps p)).
Proof.
  rewrite normpath_unfold. case_bool_decide as H1; [by left|]. simpl.
  case_bool_decide as H2; [by left|]. right.
  split; [apply comps_normal|]. split; [|done].
  destruct (slashes p) eqn:Hs; [|by left]. right. intros Hc.
  by rewrite Hc in H2.
Qed.

(** [normpath] leaves its own results as they are. *)
Lemma normpath_idemp (p : str) : normpath (normpath p) = normpath p.
Proof.
  destruct (normpath_shape p) as [->|(Hn & Hne & ->)]; [done|].
  apply normpath_of_normal; [apply slashes_cases|done..].
Qed.

Lemma normpath_not_nil (p : str) : normpath p ≠ [].
Proof.
  rewrite normpath_unfold. case_bool_decide; [done|]. simpl.
  by case_bool_decide.
Qed.

(** [normpath] keeps a path absolute or relative. *)
Lemma normpath_isabs (p : str) : isabs (normpath p) = isabs p.
Proof.
  rewrite normpath_unfold. unfold isabs.
  case_bool_decide as H1; [by subst|]. simpl.
  pose proof (join_kept_head _ (proj1 (comps_normal p))) as Hj.
  unfold slashes in *. destruct (startswith p sep) eqn:Hp.
  - destruct (_ && _); simpl; by rewrite ?startswith_nil.
  - simpl. case_bool_decide; [done|]. by rewrite Hj.
Qed.

End normpath_facts.

Section character_facts.
Import Py Normal.

Lemma startswith_app (p s : str) : startswith (p ++ s) p = true.
Proof.
  induction p as [|c p IH]; [apply startswith_nil|].
  simpl. by rewrite N.eqb_refl.
Qed.

Lemma startswith_prefix (s p : str) :
  startswith s p = true → ∃ t, s = p ++ t.
Proof.
  revert s. induction p as [|c p IH]; intros s; [by exists s|].
  destruct s as [|a s]; [done|]. simpl.
  intros [->%N.eqb_eq Hs]%andb_true_iff.
  destruct (IH _ Hs) as [t ->]. by exists t.
Qed.

Lemma removeprefix_app (p s : str) : removeprefix (p ++ s) p = s.
Proof.
  unfold removeprefix. by rewrite startswith_app, drop_app_length.
Qed.

Lemma elem_of_removeprefix (s p : str) (c : N) :
  c ∈ removeprefix s p → c ∈ s.
Proof.
  unfold removeprefix. destruct (startswith s p); [|done].
  intros H. rewrite <- (take_drop (length p) s). set_solver.
Qed.

Lemma elem_of_join (s0 : str) (l : list str) (c : N) :
  c ∈ join s0 l → c ∈ s0 ∨ ∃ x, x ∈ l ∧ c ∈ x.
Proof.
  induction l as [|x [|y l] IH].
  - by intros ?%elem_of_nil.
  - simpl. intros Hc. right. exists x. split; [left|done].
  - change (join s0 (x :: y :: l)) with (x ++ s0 ++ join s0 (y :: l)).
    rewrite !elem_of_app. intros [Hc|[Hc|Hc]].
    + right. exists x. split; [left|done].
    + by left.
    + destruct (IH Hc) as [?|(z & Hz & ?)]; [by left|].
      right. exists z. split; [by right|done].
Qed.

Lemma elem_of_removelast (l : list str) (x : str) :
  x ∈ removelast l → x ∈ l.
Proof.
  destruct l as [|z l _] using rev_ind; [done|].
  rewrite removelast_last. set_solver.
Qed.

Lemma elem_of_normpath_step n acc c x :
  x ∈ normpath_step n acc c → x ∈ acc ∨ x = c.
Proof.
  unfold normpath_step. case_bool_decide; [by left|].
  destruct (_ || _).
  - rewrite elem_of_app, list_elem_of_singleton. tauto.
  - case_bool_decide; [|by left]. intros ?%elem_of_removelast. by left.
Qed.

Lemma elem_of_foldl_normpath_step n acc cs x :
  x ∈ foldl (normpath_step n) acc cs → x ∈ acc ∨ x ∈ cs.
Proof.
  revert acc. induction cs as [|c cs IH]; intros acc; [by left|].
  simpl. intros [[? | ->]%elem_of_normpath_step | ?]%IH.
  - by left.
  - right. left.
  - right. by right.
Qed.

(** Every character of what [normpath] returns is a character of the
    path, a dot or a slash. *)
Lemma elem_of_normpath (p : str) (c : N) :
  c ∈ normpath p → c ∈ p ∨ c = 46 ∨ c = SLASH.
Proof.
  assert (Hdot : c ∈ curdir → c = 46) by by intros ->%list_elem_of_singleton.
  rewrite normpath_unfold. case_bool_decide; [auto|]. simpl.
  case_bool_decide; [auto|].
  rewrite elem_of_app. intros [Hc|Hc].
  - right. right. destruct (slashes_cases p) as [Hs|[Hs|Hs]];
      rewrite Hs in Hc; simpl in Hc;
      repeat (apply elem_of_cons in Hc as [Hc|Hc]; [done|]);
      by apply elem_of_nil in Hc.
  - apply elem_of_join in Hc as [Hc|(x & Hx & Hc)].
    + right. right. by apply list_elem_of_singleton in Hc.
    + left. apply elem_of_foldl_normpath_step in Hx as [Hx|Hx];
        [by apply elem_of_nil in Hx|].
      by apply (split_elem_of SLASH p x).
Qed.

(** No line of [splitlines] holds a line boundary. *)
Lemma splitlines_no_linebreak (s : str) :
  Forall (Forall (λ c, is_linebreak c = false)) (splitlines s).
Proof.
  remember (length s) as n eqn:Hn. revert s Hn.
  induction n as [n IH] using lt_wf_ind. intros [|c s] Hn; [constructor|].
  simpl in Hn.
  change (splitlines (c :: s))
    with (if is_linebreak c then
            [] :: (if c =? CR then
                     match s with
                     | c' :: r' =>
                         if c' =? LF then splitlines r' else splitlines s
                     | [] => splitlines s
                     end
                   else splitlines s)
          else match splitlines s with
               | [] => [[c]]
               | x :: xs => (c :: x) :: xs
               end).
  assert (Hs : Forall (Forall (λ c, is_linebreak c = false)) (splitlines s))
    by (apply (IH (length s)); [lia|done]).
  destruct (is_linebreak c) eqn:Hc.
  - constructor; [constructor|].
    destruct (c =? CR); [|done]. destruct s as [|c' r']; [done|].
    destruct (c' =? LF); [|done].
    apply (IH (length r')); [simpl in *; lia|done].
  - destruct (splitlines s) as [|x xs]; [by repeat constructor|].
    inversion Hs; subst. constructor; [by constructor|done].
Qed.

End character_facts.

Section extract_sources_more.
Local Opaque Py.lit.
Import Py Normal Effects extract_sources.
Variable E : env.

Local Instance only_logged_preorder : PreOrder only_logged.
Proof.
  split.
  - by intros w.
  - intros w1 w2 w3 (H1 & H2 & H3) (H4 & H5 & H6).
    split; [congruence|]. split; [congruence|by etrans].
Qed.

Lemma logging_only_logged lvl msg w : only_logged w (add_log lvl msg w).
Proof. split; [done|]. split; [done|]. by apply prefix_app_r. Qed.

Lemma normalize_source_path_only_logged raw w :
  only_logged w (normalize_source_path E raw w).2.
Proof.
  unfold normalize_source_path.
  destruct (startswith (strip raw) (CUR_DIR E)); [done|].
  apply logging_only_logged.
Qed.

Lemma extract_sources_from_binary_only_logged binary w :
  only_logged w (extract_sources_from_binary E binary w).2.
Proof.
  unfold extract_sources_from_binary, check_output, logging. run.
  pose proof (logging_only_logged INFO
                (lit "Extracting sources from " ++ binary) w) as H0.
  destruct (llvm_dwarfdump E binary) as [p|e]; [|done]. simpl.
  destruct (bool_decide (returncode p ≠ 0%Z)); [done|]. simpl.
  destruct (decode (stdout p)) as [output|e]; [|done]. simpl.
  pose proof (comprehension_preserves only_logged (normalize_source_path E)
                (splitlines (strip output))
                (add_log INFO (lit "Extracting sources from " ++ binary) w)
                normalize_source_path_only_logged) as Hc.
  destruct (comprehension _ _ _) as [[ps|e] w1]; simpl in *; by etrans.
Qed.

Lemma extract_sources_only_logs_helper (w : world) :
  only_logged w (extract_sources E w).2.
Proof.
  unfold extract_sources.
  pose proof (comprehension_preserves only_logged
                (extract_sources_from_binary E) (binaries E) w
                extract_sources_from_binary_only_logged) as Hc.
  unfold mbind, M_bind, bind.
  by destruct (comprehension _ _ _) as [[ps|e] w1].
Qed.

(** X4. Extraction reads and logs, nothing else: whatever it returns or
    raises, the files and the list objects are untouched and the log
    has only grown at its end. *)
Theorem extract_sources_only_logs (w : world) :
  only_logged w (extract_sources E w).2.
Proof. apply extract_sources_only_logs_helper. Qed.

(** The value returned for a line, as a function of the line. *)
Lemma normalize_source_path_value raw w q w' :
  normalize_source_path E raw w = (Ok q, w') →
  q = [] ∨ q = normpath (removeprefix (strip raw) (CUR_DIR E ++ lit "/")).
Proof.
  unfold normalize_source_path.
  destruct (startswith (strip raw) (CUR_DIR E)); run; intros [= <- _]; auto.
Qed.

(** Where a path of the extracted list comes from. *)
Lemma extract_sources_elem_of_inv w xs w' q :
  extract_sources E w = (Ok xs, w') → q ∈ xs →
  kept q = true
  ∧ ∃ binary p output raw w0 w1,
      binary ∈ binaries E
      ∧ llvm_dwarfdump E binary = Ok p
      ∧ decode (stdout p) = Ok output
      ∧ raw ∈ splitlines (strip output)
      ∧ normalize_source_path E raw w0 = (Ok q, w1).
Proof.
  intros (per_binary & Hrun & ->)%extract_sources_Ok Hq.
  apply elem_of_elements, elem_of_list_to_set, list_elem_of_join in Hq
    as (ps & Hq & Hps).
  destruct (comprehension_elem_of_inv _ _ _ _ _ _ Hrun Hps)
    as (binary & wa & wb & Hbin & Hps').
  apply extract_sources_from_binary_Ok in Hps'
    as (p & output & paths & wc & Hp & _ & Hout & Hpaths & ->).
  apply list_elem_of_In, filter_In in Hq as [Hq%list_elem_of_In Hkept].
  split; [done|].
  destruct (comprehension_elem_of_inv _ _ _ _ _ _ Hpaths Hq)
    as (raw & wd & we & Hraw & Hnorm).
  by exists binary, p, output, raw, wd, we.
Qed.

Lemma extract_sources_elem_of_intro w xs w' q binary p output raw w0 w1 :
  extract_sources E w = (Ok xs, w') →
  binary ∈ binaries E →
  llvm_dwarfdump E binary = Ok p →
  decode (stdout p) = Ok output →
  raw ∈ splitlines (strip output) →
  normalize_source_path E raw w0 = (Ok q, w1) →
  kept q = true →
  q ∈ xs.
Proof.
  intros (per_binary & Hrun & ->)%extract_sources_Ok Hbin Hp Hout Hraw Hq Hkept.
  apply elem_of_elements, elem_of_list_to_set, list_elem_of_join.
  destruct (comprehension_elem_of _ _ _ _ _ _ Hrun Hbin)
    as (ps & wa & wb & Hps & Hin).
  exists ps. split; [|done].
  apply extract_sources_from_binary_Ok in Hps
    as (p' & output' & paths & wc & Hp' & _ & Hout' & Hpaths & ->).
  rewrite Hp in Hp'. injection Hp' as <-.
  rewrite Hout in Hout'. injection Hout' as <-.
  destruct (comprehension_elem_of _ _ _ _ _ _ Hpaths Hraw)
    as (q' & wd & we & Hq' & Hin').
  destruct (normalize_source_path_any_world E _ _ _ _ wd Hq) as (wf & Hq'').
  rewrite Hq' in Hq''. injection Hq'' as -> _.
  apply list_elem_of_In, filter_In. split; [by apply list_elem_of_In|done].
Qed.

(** X3. The extracted list holds exactly the kept normalized paths of
    the lines the tool printed for the artifacts: nothing else gets in
    and none of them is lost. *)
Theorem extract_sources_elem_of (w : world) (xs : list str) (w' : world)
    (q : str) :
  extract_sources E w = (Ok xs, w') →
  q ∈ xs
  ↔ kept q = true
    ∧ ∃ binary p output raw w0 w1,
        binary ∈ binaries E
        ∧ llvm_dwarfdump E binary = Ok p
        ∧ decode (stdout p) = Ok output
        ∧ raw ∈ splitlines (strip output)
        ∧ normalize_source_path E raw w0 = (Ok q, w1).
Proof.
  intros Hrun. split.
  - by apply extract_sources_elem_of_inv with w w'.
  - intros (Hkept & binary & p & output & raw & w0 & w1
            & Hbin & Hp & Hout & Hraw & Hq).
    by apply extract_sources_elem_of_intro
      with w w' binary p output raw w0 w1.
Qed.

Lemma extract_sources_path_chars w xs w' q c :
  extract_sources E w = (Ok xs, w') → q ∈ xs → c ∈ q →
  is_linebreak c = false.
Proof.
  intros Hrun Hq Hc.
  destruct (extract_sources_elem_of_inv _ _ _ _ Hrun Hq)
    as (_ & binary & p & output & raw & w0 & w1 & _ & _ & _ & Hraw & Hnorm).
  apply normalize_source_path_value in Hnorm as [->| ->];
    [by apply elem_of_nil in Hc|].
  apply elem_of_normpath in Hc as [Hc|[->| ->]]; [|done..].
  apply elem_of_removeprefix, elem_of_strip in Hc.
  pose proof (splitlines_no_linebreak (strip output)) as Hall.
  rewrite Forall_forall in Hall. specialize (Hall raw Hraw).
  rewrite Forall_forall in Hall. by apply Hall.
Qed.

(** X5. No extracted path holds a line boundary (line feed, carriage
    return or another character that ends a line), so each path takes
    one line of the file. *)
Theorem extract_sources_no_linebreak (w : world) (xs : list str)
    (w' : world) :
  extract_sources E w = (Ok xs, w') →
  Forall (Forall (λ c, is_linebreak c = false)) xs.
Proof.
  intros Hrun. apply Forall_forall. intros q Hq.
  apply Forall_forall. intros c Hc.
  by apply extract_sources_path_chars with w xs w' q.
Qed.

(** X1. A line that reads, once trimmed, as the build root, a slash and
    a remainder is answered with the normalized remainder, and nothing
    is logged; the answer is a relative path exactly when the remainder
    is one. *)
Theorem normalize_source_path_under_build_root (raw rel : str) (w : world) :
  strip raw = CUR_DIR E ++ lit "/" ++ rel →
  normalize_source_path E raw w = (Ok (normpath rel), w)
  ∧ isabs (normpath rel) = isabs rel.
Proof.
  intros Hraw. split; [|apply normpath_isabs].
  unfold normalize_source_path. rewrite Hraw, startswith_app. simpl.
  by rewrite app_assoc, removeprefix_app.
Qed.

(** X2. Whitespace around a line does not matter: a line padded with
    whitespace on either side is answered as the line itself, value and
    log. *)
Theorem normalize_source_path_padded (ws1 raw ws2 : str) (w : world) :
  Forall (λ c, isspace c = true) ws1 →
  Forall (λ c, isspace c = true) ws2 →
  normalize_source_path E (ws1 ++ raw ++ ws2) w
  = normalize_source_path E raw w.
Proof.
  intros H1 H2. unfold normalize_source_path. by rewrite strip_padded.
Qed.

End extract_sources_more.

Section write_and_main.
Local Opaque Py.lit.
Import Py Normal Effects extract_sources.
Variable E : env.

(** The four ways [write_sources] can end: the directory cannot be
    made, the file cannot be opened, the write fails after the file was
    opened, or everything is written. *)
Lemma write_sources_unfold sources dir w :
  let w1 := add_log INFO (lit "Writing sources to " ++ output_file_in E dir)
              (set_heap (alter sort sources) w) in
  write_sources E sources dir w
  = if can_makedirs E (abspath (getcwd E) dir) then
      if can_write E (output_file_in E dir) then
        (Ok tt, set_files (<[output_file_in E dir
                             := print_lines (heap w1 !!! sources)]>) w1)
      else
        match write_failure E (output_file_in E dir) with
        | Some n =>
            (Raise OSError,
             set_files (<[output_file_in E dir
                          := take n (print_lines (heap w1 !!! sources))]>) w1)
        | None => (Raise OSError, w1)
        end
    else (Raise OSError, w1).
Proof.
  unfold write_sources, open_for_writing, print_to_file, output_file_in,
    logging. run.
  destruct (can_makedirs E _); [|done]. simpl.
  destruct (can_write E _); simpl.
  - unfold set_files. simpl. by rewrite insert_insert_eq.
  - destruct (write_failure E _) as [n|]; simpl; [|done].
    unfold set_files. simpl. by rewrite insert_insert_eq.
Qed.

Lemma sort_sorted_permutation (xs ys : list str) :
  ys ≡ₚ xs → Sorted str_le ys → sort xs = ys.
Proof.
  intros Hp Hs. apply (Sorted_unique str_le); [apply sort_Sorted|done|].
  by rewrite sort_Permutation.
Qed.

Lemma lookup_total_alter_sort (h : gmap loc (list str)) sources xs :
  h !! sources = Some xs → alter sort sources h !!! sources = sort xs.
Proof.
  intros H. unfold lookup_total, map_lookup_total.
  by rewrite lookup_alter_eq, H.
Qed.

(** X6. When the write goes through, the output file holds the paths of
    the caller's list in increasing order, one per line, each followed
    by a line feed; every other file is as it was. *)
Theorem write_sources_file (sources : loc) (dir : str) (w : world)
    (xs ys : list str) :
  heap w !! sources = Some xs →
  ys ≡ₚ xs → Sorted str_le ys →
  can_makedirs E (abspath (getcwd E) dir) = true →
  can_write E (output_file_in E dir) = true →
  ∃ w', write_sources E sources dir w = (Ok tt, w')
        ∧ files w' = <[output_file_in E dir := print_lines ys]> (files w).
Proof.
  intros Hxs Hp Hs Hdir Hfile. rewrite write_sources_unfold. simpl.
  rewrite Hdir, Hfile. eexists. split; [done|]. simpl.
  by rewrite (lookup_total_alter_sort _ _ xs), (sort_sorted_permutation xs ys).
Qed.

(** X7. The order of the caller's list does not reach the file: two
    lists with the same elements leave the same files and the same list
    object behind. *)
Theorem write_sources_order_irrelevant (sources : loc) (dir : str)
    (w1 w2 : world) (xs ys : list str) :
  heap w1 !! sources = Some xs →
  heap w2 !! sources = Some ys →
  xs ≡ₚ ys →
  files w1 = files w2 →
  files (write_sources E sources dir w1).2
  = files (write_sources E sources dir w2).2
  ∧ heap (write_sources E sources dir w1).2 !! sources
    = heap (write_sources E sources dir w2).2 !! sources.
Proof.
  intros Hxs Hys Hp Hfiles.
  assert (Hsort : sort xs = sort ys).
  { apply sort_sorted_permutation; [|apply sort_Sorted].
    by rewrite sort_Permutation. }
  assert (Hheap : alter sort sources (heap w1) !! sources
                  = alter sort sources (heap w2) !! sources)
    by (by rewrite !lookup_alter_eq, Hxs, Hys; simpl; rewrite Hsort).
  rewrite !write_sources_unfold. simpl.
  rewrite (lookup_total_alter_sort _ _ xs), (lookup_total_alter_sort _ _ ys),
    Hsort by done.
  destruct (can_makedirs E (abspath (getcwd E) dir)); [|done].
  destruct (can_write E (output_file_in E dir)); simpl;
    [by rewrite Hfiles|].
  destruct (write_failure E (output_file_in E dir)); simpl;
    by rewrite ?Hfiles.
Qed.

(** X8. Writing again changes nothing: after a second call the files
    and the list objects are what the first call left. *)
Theorem write_sources_twice (sources : loc) (dir : str) (w : world) :
  let w1 := (write_sources E sources dir w).2 in
  files (write_sources E sources dir w1).2 = files w1
  ∧ heap (write_sources E sources dir w1).2 = heap w1.
Proof.
  assert (Halter : ∀ h : gmap loc (list str),
             alter sort sources (alter sort sources h) = alter sort sources h).
  { intros h. apply map_eq. intros l.
    destruct (decide (l = sources)) as [->|Hne].
    - rewrite !lookup_alter_eq. destruct (h !! sources) as [xs|]; [|done].
      simpl. f_equal. apply sort_fixed, sort_Sorted.
    - by rewrite !lookup_alter_ne. }
  assert (Htotal : ∀ h : gmap loc (list str),
             alter sort sources (alter sort sources h) !!! sources
             = alter sort sources h !!! sources)
    by (intros h; by rewrite Halter).
  simpl. rewrite !write_sources_unfold. simpl.
  destruct (can_makedirs E (abspath (getcwd E) dir)); simpl;
    [|by rewrite Halter].
  destruct (can_write E (output_file_in E dir)); simpl;
    [by rewrite ?Halter, ?Htotal, ?insert_insert_eq|].
  destruct (write_failure E (output_file_in E dir)); simpl;
    by rewrite ?Halter, ?Htotal, ?insert_insert_eq.
Qed.

(** A handler that logs and exits turns every exception into
    [SystemExit]. *)
Lemma try_except_log_and_exit {A} (m : M world A) w :
  (∃ a w', try_except m log_and_exit w = (Ok a, w') ∧ m w = (Ok a, w'))
  ∨ (∃ e w1, m w = (Raise e, w1)
       ∧ try_except m log_and_exit w
         = if is_Exception e
           then (Raise (SystemExit 0), add_log ERROR (lit "None") w1)
           else (Raise e, w1)).
Proof.
  unfold try_except. destruct (m w) as [[a|e] w1] eqn:Hm.
  - left. by exists a, w1.
  - right. exists e, w1. split; [done|]. by destruct (is_Exception e).
Qed.

Lemma try_except_Ok_or_exit {A} (m : M world A) w :
  (∃ a w', try_except m log_and_exit w = (Ok a, w'))
  ∨ (∃ code w', try_except m log_and_exit w = (Raise (SystemExit code), w')).
Proof.
  destruct (try_except_log_and_exit m w)
    as [(a & w' & -> & _)|(e & w1 & _ & ->)]; [by eauto|].
  right. destruct e; simpl; eauto.
Qed.

Lemma bind_Ok_or_exit {A B} (m : M world A) (k : A → M world B) w :
  ((∃ a w', m w = (Ok a, w'))
   ∨ (∃ code w', m w = (Raise (SystemExit code), w'))) →
  (∀ a w1, (∃ b w', k a w1 = (Ok b, w'))
           ∨ (∃ code w', k a w1 = (Raise (SystemExit code), w'))) →
  (∃ b w', (m ≫= k) w = (Ok b, w'))
  ∨ (∃ code w', (m ≫= k) w = (Raise (SystemExit code), w')).
Proof.
  intros [(a & w1 & Hm)|(code & w1 & Hm)] Hk.
  - rewrite (bind_Ok _ _ _ _ _ Hm). apply Hk.
  - right. rewrite (bind_Raise _ _ _ _ _ Hm). eauto.
Qed.

(** X9. [main] never lets an exception through: it returns, or it ends
    in [SystemExit], whatever the build, the tool and the file system
    do. *)
Theorem main_returns_or_exits (a : args) (w : world) :
  (∃ w', main E a w = (Ok tt, w'))
  ∨ (∃ code w', main E a w = (Raise (SystemExit code), w')).
Proof.
  assert (Hunit : ∀ m : M world unit, ∀ w,
            ((∃ (a : unit) w', m w = (Ok a, w'))
             ∨ (∃ code w', m w = (Raise (SystemExit code), w'))) →
            (∃ w', m w = (Ok tt, w'))
            ∨ (∃ code w', m w = (Raise (SystemExit code), w'))).
  { intros m w0 [([] & w' & H)|H]; eauto. }
  apply Hunit. unfold main. apply bind_Ok_or_exit.
  - unfold build. destruct (negb (no_compile a)); [|left; by eexists _, _].
    apply bind_Ok_or_exit; [apply try_except_Ok_or_exit|].
    intros _ w1. apply try_except_Ok_or_exit.
  - intros _ w1. unfold extract_and_write. apply bind_Ok_or_exit.
    + apply try_except_Ok_or_exit.
    + intros l w2. apply try_except_Ok_or_exit.
Qed.

End write_and_main.

Section main_outcomes.
Local Opaque Py.lit.
Import Py Normal Effects extract_sources.
Variable E : env.

Lemma comprehension_Raise_inv {S A B} (f : A → M S B) xs w e w' :
  comprehension xs f w = (Raise e, w') →
  ∃ x w0, x ∈ xs ∧ f x w0 = (Raise e, w').
Proof.
  revert w. induction xs as [|x xs IH]; intros w; [done|].
  simpl. unfold mbind, M_bind, bind.
  destruct (f x w) as [[y|e0] w1] eqn:Hf.
  - destruct (comprehension xs f w1) as [[ys|e1] w2] eqn:Hc; [done|].
    intros [= <- <-]. destruct (IH _ Hc) as (x' & w0 & Hin & Hx').
    exists x', w0. split; [by right|done].
  - intros [= <- <-]. exists x, w. split; [left|done].
Qed.

Lemma comprehension_normalize_Ok lines w :
  ∃ ps w', comprehension lines (normalize_source_path E) w = (Ok ps, w').
Proof.
  revert w. induction lines as [|raw lines IH]; intros w; [by eexists _, _|].
  destruct (normalize_source_path_returns E raw w) as (p & w1 & Hp).
  destruct (IH w1) as (ps & w2 & Hps).
  exists (p :: ps), w2. simpl. rewrite (bind_Ok _ _ _ _ _ Hp).
  by rewrite (bind_Ok _ _ _ _ _ Hps).
Qed.

(** What extraction from one artifact can raise. *)
Lemma extract_sources_from_binary_Raise binary w e w' :
  extract_sources_from_binary E binary w = (Raise e, w') →
  llvm_dwarfdump E binary = Raise e
  ∨ (∃ p, llvm_dwarfdump E binary = Ok p ∧ returncode p ≠ 0%Z
          ∧ e = CalledProcessError (returncode p))
  ∨ (∃ p, llvm_dwarfdump E binary = Ok p ∧ returncode p = 0%Z
          ∧ decode (stdout p) = Raise e).
Proof.
  unfold extract_sources_from_binary, check_output, logging. run.
  destruct (llvm_dwarfdump E binary) as [p|e0]; simpl;
    [|intros [= <- _]; by left].
  case_bool_decide as Hrc; simpl.
  { intros [= <- _]. right. left. by exists p. }
  destruct (decode (stdout p)) as [output|e0] eqn:Hdec; simpl.
  - destruct (comprehension_normalize_Ok (splitlines (strip output))
                (add_log INFO (lit "Extracting sources from " ++ binary) w))
      as (ps & w1 & ->). done.
  - intros [= <- _]. right. right. exists p. by rewrite Hdec.
Qed.

(** An exception out of extraction is an ordinary one unless the tool's
    start raised [SystemExit] itself. *)
Lemma extract_sources_Raise w e w' :
  extract_sources E w = (Raise e, w') →
  is_Exception e = true ∨ ∃ binary, llvm_dwarfdump E binary = Raise e.
Proof.
  unfold extract_sources. unfold mbind, M_bind, bind.
  destruct (comprehension _ _ _) as [[ps|e0] w1] eqn:Hc; [done|].
  intros [= <- <-].
  apply comprehension_Raise_inv in Hc as (binary & w0 & _ & Hb).
  apply extract_sources_from_binary_Raise in Hb
    as [Hb|[(p & _ & _ & ->)|(p & _ & _ & Hd)]]; [by eauto|by left|].
  left. unfold decode in Hd. by destruct (utf8_decode _); [|injection Hd as <-].
Qed.

Lemma new_list_files xs w : files (new_list xs w).2 = files w.
Proof. done. Qed.

(** What extraction and writing leave when they do not return: the
    files as they were, or the output file cut short by a write that
    failed after the file was opened. *)
Lemma extract_and_write_Raise a w e w' :
  extract_and_write E a w = (Raise e, w') →
  (files w' = files w
   ∨ ∃ xs w1 n,
       extract_sources E w = (Ok xs, w1)
       ∧ can_makedirs E (abspath (getcwd E) (output_dir a)) = true
       ∧ can_write E (output_file_in E (output_dir a)) = false
       ∧ write_failure E (output_file_in E (output_dir a)) = Some n
       ∧ files w'
         = <[output_file_in E (output_dir a)
             := take n (print_lines (sort xs))]> (files w))
  ∧ (e = SystemExit 0 ∨ ∃ binary, llvm_dwarfdump E binary = Raise e).
Proof.
  unfold extract_and_write.
  set (m1 := extract_sources E ≫= new_list).
  destruct (try_except_log_and_exit m1 w)
    as [(l & w2 & Htry & Hm1)|(e1 & w1 & Hm1 & Htry)].
  - rewrite (bind_Ok _ _ _ _ _ Htry).
    unfold m1 in Hm1. apply bind_Ok_inv in Hm1 as (xs & w1 & Hx & Hn).
    assert (Hfiles1 : files w1 = files w).
    { pose proof (extract_sources_only_logs_helper E w) as Hlog.
      rewrite Hx in Hlog. by destruct Hlog as (_ & Hf & _). }
    unfold new_list in Hn. injection Hn as <- <-.
    destruct (try_except_log_and_exit
                (write_sources E (fresh (dom (heap w1))) (output_dir a))
                (set_heap (<[fresh (dom (heap w1)) := xs]>) w1))
      as [(u & w3 & -> & _)|(e2 & w3 & Hw & ->)]; [done|].
    rewrite write_sources_unfold in Hw. simpl in Hw.
    rewrite (lookup_total_alter_sort _ _ xs) in Hw by apply lookup_insert_eq.
    destruct (can_makedirs E _) eqn:Hdir.
    + destruct (can_write E _) eqn:Hfile; [done|].
      destruct (write_failure E _) as [n|] eqn:Hfail;
        injection Hw as <- <-; simpl; intros [= <- <-]; simpl.
      * split; [right|by left]. exists xs, w1, n. by rewrite Hfiles1.
      * split; [by left|by left].
    + injection Hw as <- <-; simpl; intros [= <- <-]; simpl.
      split; [by left|by left].
  - rewrite (bind_Raise _ _ w
               (if is_Exception e1 then add_log ERROR (lit "None") w1 else w1)
               (if is_Exception e1 then SystemExit 0 else e1))
      by (rewrite Htry; by destruct (is_Exception e1)).
    intros [= <- <-].
    unfold m1 in Hm1. unfold mbind, M_bind, bind in Hm1.
    destruct (extract_sources E w) as [[xs|e0] w0] eqn:Hx; [done|].
    injection Hm1 as -> ->.
    pose proof (extract_sources_only_logs_helper E w) as Hlog.
    rewrite Hx in Hlog. destruct Hlog as (_ & Hf & _).
    split; [left; by destruct (is_Exception e1)|].
    destruct (extract_sources_Raise _ _ _ Hx) as [He|He].
    + rewrite He. by left.
    + destruct (is_Exception e1); [by left|by right].
Qed.

(** A write that fails after the file was opened ends extraction and
    writing with exit status 0 and the output file cut short. *)
Lemma extract_and_write_cut_short a w xs w1 n :
  extract_sources E w = (Ok xs, w1) →
  can_makedirs E (abspath (getcwd E) (output_dir a)) = true →
  can_write E (output_file_in E (output_dir a)) = false →
  write_failure E (output_file_in E (output_dir a)) = Some n →
  ∃ w', extract_and_write E a w = (Raise (SystemExit 0), w')
        ∧ files w'
          = <[output_file_in E (output_dir a)
              := take n (print_lines (sort xs))]> (files w).
Proof.
  intros Hx Hdir Hfile Hfail.
  pose proof (extract_sources_only_logs_helper E w) as Hlog.
  rewrite Hx in Hlog. destruct Hlog as (_ & Hf & _). simpl in Hf.
  unfold extract_and_write.
  set (l := fresh (dom (heap w1))).
  rewrite (bind_Ok _ _ w (set_heap (<[l := xs]>) w1) l).
  2:{ unfold try_except. by rewrite (bind_Ok _ _ _ _ _ Hx). }
  unfold try_except. rewrite write_sources_unfold. simpl.
  rewrite Hdir, Hfile, Hfail. simpl. eexists. split; [done|]. simpl.
  rewrite (lookup_total_alter_sort _ _ xs) by apply lookup_insert_eq.
  by rewrite Hf.
Qed.

(** A directory that cannot be made or a file that cannot be opened
    ends extraction and writing with exit status 0 and the files as they
    were. *)
Lemma extract_and_write_untouched a w xs w1 :
  extract_sources E w = (Ok xs, w1) →
  can_write E (output_file_in E (output_dir a)) = false →
  (can_makedirs E (abspath (getcwd E) (output_dir a)) = false
   ∨ write_failure E (output_file_in E (output_dir a)) = None) →
  ∃ w', extract_and_write E a w = (Raise (SystemExit 0), w')
        ∧ files w' = files w.
Proof.
  intros Hx Hfile Hwhy.
  pose proof (extract_sources_only_logs_helper E w) as Hlog.
  rewrite Hx in Hlog. destruct Hlog as (_ & Hf & _). simpl in Hf.
  unfold extract_and_write.
  set (l := fresh (dom (heap w1))).
  rewrite (bind_Ok _ _ w (set_heap (<[l := xs]>) w1) l).
  2:{ unfold try_except. by rewrite (bind_Ok _ _ _ _ _ Hx). }
  unfold try_except. rewrite write_sources_unfold. simpl. rewrite Hfile.
  destruct Hwhy as [-> | ->]; [|destruct (can_makedirs E _)];
    simpl; by eexists.
Qed.

(** X10. After the build, a run of [main] that does not return has
    changed at most the output file. When the extraction fails, the
    directory cannot be made or the file cannot be opened, every file is
    as the build left it. When the file is opened and the write or the
    close then fails, the output file holds only the characters that
    reached it, so what an earlier run wrote there is lost, and [main]
    still exits with status 0. The exit status is 0 in every case unless
    starting the tool raised [SystemExit] itself. *)
Theorem main_failure_files (a : args) (w wb : world) :
  build E a w = (Ok tt, wb) →
  (∀ e w',
     main E a w = (Raise e, w') →
     (files w' = files wb
      ∨ ∃ xs w1 n,
          extract_sources E wb = (Ok xs, w1)
          ∧ can_makedirs E (abspath (getcwd E) (output_dir a)) = true
          ∧ can_write E (output_file_in E (output_dir a)) = false
          ∧ write_failure E (output_file_in E (output_dir a)) = Some n
          ∧ files w'
            = <[output_file_in E (output_dir a)
                := take n (print_lines (sort xs))]> (files wb))
     ∧ (e = SystemExit 0 ∨ ∃ binary, llvm_dwarfdump E binary = Raise e))
  ∧ (∀ xs w1 n,
       extract_sources E wb = (Ok xs, w1) →
       can_makedirs E (abspath (getcwd E) (output_dir a)) = true →
       can_write E (output_file_in E (output_dir a)) = false →
       write_failure E (output_file_in E (output_dir a)) = Some n →
       ∃ w', main E a w = (Raise (SystemExit 0), w')
             ∧ files w'
               = <[output_file_in E (output_dir a)
                   := take n (print_lines (sort xs))]> (files wb))
  ∧ (∀ xs w1,
       extract_sources E wb = (Ok xs, w1) →
       can_write E (output_file_in E (output_dir a)) = false →
       (can_makedirs E (abspath (getcwd E) (output_dir a)) = false
        ∨ write_failure E (output_file_in E (output_dir a)) = None) →
       ∃ w', main E a w = (Raise (SystemExit 0), w')
             ∧ files w' = files wb).
Proof.
  intros Hbuild. unfold main. rewrite (bind_Ok _ _ _ _ _ Hbuild).
  split_and!.
  - intros e w'. apply extract_and_write_Raise.
  - intros xs w1 n. apply extract_and_write_cut_short.
  - intros xs w1. apply extract_and_write_untouched.
Qed.

(** X11. When the build and the extraction succeed and the write goes
    through, [main] returns; the output file then holds the extracted
    paths in increasing order without repetition, one per line, and
    every other file is as the build left it. *)
Theorem main_writes_sorted_sources (a : args) (w wb w1 : world)
    (xs : list str) :
  build E a w = (Ok tt, wb) →
  extract_sources E wb = (Ok xs, w1) →
  can_makedirs E (abspath (getcwd E) (output_dir a)) = true →
  can_write E (output_file_in E (output_dir a)) = true →
  ∃ w', main E a w = (Ok tt, w')
        ∧ files w'
          = <[output_file_in E (output_dir a) := print_lines (sort xs)]>
              (files wb)
        ∧ Sorted str_le (sort xs) ∧ NoDup (sort xs)
        ∧ ∀ q, q ∈ sort xs ↔ q ∈ xs.
Proof.
  intros Hbuild Hx Hdir Hfile.
  pose proof (extract_sources_only_logs_helper E wb) as Hlog.
  rewrite Hx in Hlog. destruct Hlog as (_ & Hf & _). simpl in Hf.
  unfold main. rewrite (bind_Ok _ _ _ _ _ Hbuild).
  unfold extract_and_write.
  set (l := fresh (dom (heap w1))).
  rewrite (bind_Ok _ _ wb (set_heap (<[l := xs]>) w1) l).
  2:{ unfold try_except. by rewrite (bind_Ok _ _ _ _ _ Hx). }
  unfold try_except. rewrite write_sources_unfold. simpl.
  rewrite Hdir, Hfile. eexists. split; [done|]. simpl.
  rewrite (lookup_total_alter_sort _ _ xs) by apply lookup_insert_eq.
  rewrite Hf. split; [done|]. split; [apply sort_Sorted|].
  split.
  - rewrite sort_Permutation.
    apply extract_sources_Ok in Hx as (? & _ & ->). apply NoDup_elements.
  - intros q. by rewrite sort_Permutation.
Qed.

(** X23. A failed build step stops [main] at once: when configuring
    raises, the kernel is not compiled and nothing is extracted; when
    compiling raises, nothing is extracted. Either way one error is
    logged on top of what the step left and the exit status is 0. *)
Theorem main_build_failure (a : args) (w w1 : world) (e : exn) :
  no_compile a = false →
  is_Exception e = true →
  (setup_config E (config_path a) w = (Raise e, w1) →
   main E a w = (Raise (SystemExit 0), add_log ERROR (lit "None") w1))
  ∧ (∀ w0, setup_config E (config_path a) w = (Ok tt, w0) →
           compile_kernel E w0 = (Raise e, w1) →
           main E a w = (Raise (SystemExit 0), add_log ERROR (lit "None") w1)).
Proof.
  intros Hno He. unfold main, build. rewrite Hno. simpl. split.
  - intros Hs. apply bind_Raise. apply bind_Raise.
    unfold try_except. by rewrite Hs, He.
  - intros w0 Hs Hc. apply bind_Raise.
    rewrite (bind_Ok _ _ w w0 tt) by (unfold try_except; by rewrite Hs).
    unfold try_except. by rewrite Hc, He.
Qed.

End main_outcomes.

Section pipeline.
Local Opaque Py.lit.
Import Py Normal Effects extract_sources.
Variable E : env.

(** An extracted path that has no whitespace at its ends is read back
    as it is. *)
Lemma extracted_path_read_back w xs w1 q :
  extract_sources E w = (Ok xs, w1) → q ∈ xs → strip q = q →
  process_cves.read_back_as_is q.
Proof.
  intros Hrun Hq Hstrip.
  assert (Hchars : ∀ c, c ∈ q → is_linebreak c = false)
    by (intros c; by apply extract_sources_path_chars with E w xs w1).
  split; [|split].
  - rewrite Hstrip.
    destruct (extract_sources_elem_of_inv E _ _ _ _ Hrun Hq)
      as (Hkept & _ & _ & _ & raw & w0 & w2 & _ & _ & _ & _ & Hnorm).
    apply normalize_source_path_value in Hnorm as [->| ->]; [done|].
    apply normpath_idemp.
  - intros H%Hchars. done.
  - intros H%Hchars. done.
Qed.

(** X12. Extraction, writing and loading compose: when the extracted
    list is not empty and none of its paths has whitespace at its ends,
    the text that is written for it is loaded by the correlator as the
    set of the extracted paths. *)
Theorem extracted_sources_read_back (w : world) (xs : list str)
    (w1 : world) :
  extract_sources E w = (Ok xs, w1) →
  xs ≠ [] →
  Forall (λ q, strip q = q) xs →
  process_cves.load_compiled_files (print_lines (sort xs)) = list_to_set xs.
Proof.
  intros Hrun Hne Hstrip.
  rewrite load_printed_lines.
  - apply list_to_set_perm_L, sort_Permutation.
  - intros Hnil. apply Hne, Permutation_nil_r.
    rewrite <- Hnil. symmetry. apply sort_Permutation.
  - rewrite (sort_Permutation xs). apply Forall_forall. intros q Hq.
    apply extracted_path_read_back with w xs w1; [done..|].
    rewrite Forall_forall in Hstrip. by apply Hstrip.
Qed.

End pipeline.

Section evaluate_more.
Local Opaque Py.lit.
Import Py Normal Effects process_cves.
Variable E : env.

Lemma fix_commits_cons (r : Reference) (refs : list Reference) :
  fix_commits (r :: refs)
  = if startswith (url r) FIX_COMMIT_PREFIX
    then commit_of (url r) :: fix_commits refs
    else fix_commits refs.
Proof. unfold fix_commits. simpl. by destruct (startswith _ _). Qed.

Lemma with_queries_nil w : with_queries w [] = w.
Proof. destruct w. unfold with_queries. simpl. by rewrite app_nil_r. Qed.

Lemma with_queries_app w qs1 qs2 :
  with_queries (with_queries w qs1) qs2 = with_queries w (qs1 ++ qs2).
Proof. unfold with_queries. simpl. by rewrite app_assoc. Qed.

(** The comprehension over the output lines changes nothing. *)
Lemma affected_files_world ls w :
  (comprehension ls affected_file w).2 = w.
Proof.
  revert w. induction ls as [|l ls IH]; intros w; [done|].
  simpl. unfold mbind, M_bind, bind.
  assert (Hl : ∃ r, affected_file l w = (r, w)).
  { unfold affected_file, decode. run. destruct (utf8_decode l); eauto. }
  destruct Hl as [[s|e] ->]; [|done].
  specialize (IH w). by destruct (comprehension ls affected_file w) as [[?|?] ?];
    simpl in *; subst.
Qed.

(** One step of the loop at a fix-commit reference. *)
Lemma evaluate_refs_fix ref rest compiled w :
  startswith (url ref) FIX_COMMIT_PREFIX = true →
  evaluate_refs E (ref :: rest) compiled w
  = let w1 := with_queries w [commit_of (url ref)] in
    match git_show E (commit_of (url ref)) with
    | Raise e => (Raise e, w1)
    | Ok p =>
        if bool_decide (returncode p ≠ 0%Z)
        then evaluate_refs E rest compiled w1
        else match comprehension (bytes_splitlines (stdout p)) affected_file w1
             with
             | (Ok fs, w2) =>
                 (Ok (existsb (λ f, bool_decide (f ∈ compiled)) fs), w2)
             | (Raise e, w2) => (Raise e, w2)
             end
    end.
Proof.
  intros Hpre. simpl. rewrite Hpre. unfold subprocess_run, record_query. run.
  destruct (git_show E _) as [p|e]; [|done]. simpl.
  by destruct (bool_decide _).
Qed.

Lemma evaluate_refs_effects refs compiled w :
  ∃ k, (evaluate_refs E refs compiled w).2
       = with_queries w (take k (fix_commits refs)).
Proof.
  revert w. induction refs as [|ref refs IH]; intros w.
  - exists 0%nat. by rewrite with_queries_nil.
  - rewrite fix_commits_cons.
    destruct (startswith (url ref) FIX_COMMIT_PREFIX) eqn:Hpre.
    + rewrite evaluate_refs_fix by done. cbv zeta.
      destruct (git_show E _) as [p|e].
      * case_bool_decide.
        -- destruct (IH (with_queries w [commit_of (url ref)])) as [k ->].
           exists (S k). by rewrite with_queries_app.
        -- exists 1%nat. simpl. rewrite take_0.
           pose proof (affected_files_world (bytes_splitlines (stdout p))
                         (with_queries w [commit_of (url ref)])) as Hw.
           by destruct (comprehension _ _ _) as [[?|?] ?]; simpl in *; subst.
      * exists 1%nat. simpl. by rewrite take_0.
    + rewrite evaluate_refs_skip by done. apply IH.
Qed.

(** X13. Evaluating a record prints nothing and asks git, in order,
    about the commits of an initial part of the record's fix-commit
    references: at most one query for each, none for other references. *)
Theorem evaluate_cve_queries (cve : Cve) (compiled : gset str) (w : world) :
  printed (evaluate_cve E cve compiled w).2 = printed w
  ∧ ∃ k, queries (evaluate_cve E cve compiled w).2
         = queries w ++ take k (fix_commits (references cve)).
Proof.
  unfold evaluate_cve.
  destruct (evaluate_refs_effects (references cve) compiled w) as [k ->].
  split; [done|]. by exists k.
Qed.

(** X14. A fix-commit reference whose query exits with 0 ends the
    evaluation: the references after it change neither the verdict nor
    the queries. *)
Theorem evaluate_cve_ignores_later_references (name : str)
    (before : list Reference) (ref : Reference) (rest rest' : list Reference)
    (compiled : gset str) (w : world) (p : CompletedProcess) :
  startswith (url ref) FIX_COMMIT_PREFIX = true →
  git_show E (commit_of (url ref)) = Ok p →
  returncode p = 0%Z →
  evaluate_cve E {| id := name; references := before ++ ref :: rest |}
    compiled w
  = evaluate_cve E {| id := name; references := before ++ ref :: rest' |}
      compiled w.
Proof.
  intros Hpre Hgit Hrc. unfold evaluate_cve. simpl. revert w.
  induction before as [|r before IH]; intros w.
  - rewrite !app_nil_l, !evaluate_refs_fix by done. simpl.
    by rewrite Hgit, Hrc.
  - rewrite <- !app_comm_cons.
    destruct (startswith (url r) FIX_COMMIT_PREFIX) eqn:Hr.
    + rewrite !evaluate_refs_fix by done. simpl.
      destruct (git_show E (commit_of (url r))) as [q|e]; [|done].
      case_bool_decide; [apply IH|done].
    + rewrite !evaluate_refs_skip by done. apply IH.
Qed.

(** X15. When the query of every fix-commit reference exits non-zero,
    the verdict is false and git has been asked about each of them,
    once and in order. *)
Theorem evaluate_cve_all_unresolvable (cve : Cve) (compiled : gset str)
    (w : world) :
  Forall (λ r, startswith (url r) FIX_COMMIT_PREFIX = true →
               ∃ q, git_show E (commit_of (url r)) = Ok q
                    ∧ returncode q ≠ 0%Z) (references cve) →
  evaluate_cve E cve compiled w
  = (Ok false, {| printed := printed w;
                  queries := queries w ++ fix_commits (references cve) |}).
Proof.
  unfold evaluate_cve. generalize (references cve). intros refs Hall.
  change ({| printed := printed w; queries := queries w ++ fix_commits refs |})
    with (with_queries w (fix_commits refs)).
  revert w. induction Hall as [|r refs Hr _ IH]; intros w.
  - by rewrite with_queries_nil.
  - rewrite fix_commits_cons.
    destruct (startswith (url r) FIX_COMMIT_PREFIX) eqn:Hpre.
    + destruct (Hr eq_refl) as (q & Hq & Hrc).
      rewrite evaluate_refs_fix by done. cbv zeta.
      rewrite Hq, bool_decide_true by done.
      rewrite IH. by rewrite with_queries_app.
    + rewrite evaluate_refs_skip by done. apply IH.
Qed.

(** X16. A larger compiled-file set never turns an applicable record
    into one that is not: the verdict true, and the queries with it,
    carry over. *)
Theorem evaluate_cve_monotone (cve : Cve) (compiled compiled' : gset str)
    (w w' : world) :
  compiled ⊆ compiled' →
  evaluate_cve E cve compiled w = (Ok true, w') →
  evaluate_cve E cve compiled' w = (Ok true, w').
Proof.
  intros Hsub. unfold evaluate_cve. generalize (references cve).
  intros refs. revert w. induction refs as [|r refs IH]; intros w; [done|].
  destruct (startswith (url r) FIX_COMMIT_PREFIX) eqn:Hpre.
  - rewrite !evaluate_refs_fix by done. simpl.
    destruct (git_show E (commit_of (url r))) as [q|e]; [|done].
    case_bool_decide; [apply IH|].
    destruct (comprehension _ _ _) as [[fs|e] w2]; [|done].
    intros [= Hany <-]. f_equal. f_equal.
    apply existsb_elem_of in Hany as (f & Hf & Hin).
    apply existsb_elem_of. exists f. split; [done|]. by apply Hsub.
  - rewrite !evaluate_refs_skip by done. apply IH.
Qed.

(** With no compiled file, no record is applicable. *)
Lemma evaluate_refs_empty refs w w' :
  evaluate_refs E refs ∅ w ≠ (Ok true, w').
Proof.
  revert w. induction refs as [|r refs IH]; intros w; [done|].
  destruct (startswith (url r) FIX_COMMIT_PREFIX) eqn:Hpre.
  - rewrite evaluate_refs_fix by done. simpl.
    destruct (git_show E (commit_of (url r))) as [q|e]; [|done].
    case_bool_decide; [apply IH|].
    destruct (comprehension _ _ _) as [[fs|e] w2]; [|done].
    intros [= Hany _]. by apply existsb_elem_of in Hany as (f & _ & ?).
  - rewrite evaluate_refs_skip by done. apply IH.
Qed.

End evaluate_more.

Section main_loop.
Local Opaque Py.lit.
Import Py Normal Effects Verdict process_cves.
Variable E : env.

Lemma evaluate_cve_printed cve compiled w :
  printed (evaluate_cve E cve compiled w).2 = printed w.
Proof.
  unfold evaluate_cve.
  by destruct (evaluate_refs_effects E (references cve) compiled w) as [k ->].
Qed.

(** One turn of the loop of [main]. *)
Lemma count_cves_cons cve rest compiled n w :
  count_cves E (cve :: rest) compiled n w
  = let w1 := {| printed := printed w ++ [lit "Processing CVE: " ++ id cve];
                 queries := queries w |} in
    match evaluate_cve E cve compiled w1 with
    | (Ok true, w2) =>
        count_cves E rest compiled (n + 1)
          {| printed := printed w2 ++ [id cve]; queries := queries w2 |}
    | (Ok false, w2) => count_cves E rest compiled n w2
    | (Raise e, w2) => (Raise e, w2)
    end.
Proof.
  simpl. unfold print. run.
  destruct (evaluate_cve E cve compiled _) as [[[|]|e] w2]; done.
Qed.

(** The decoded lines of a query do not depend on the world. *)
Lemma affected_files_pure ls :
  ∃ r, ∀ w, comprehension ls affected_file w = (r, w).
Proof.
  induction ls as [|l ls [r IH]]; [by exists (Ok [])|].
  assert (Hl : ∃ r0, ∀ w, affected_file l w = (r0, w)).
  { unfold affected_file, decode. run. destruct (utf8_decode l); eauto. }
  destruct Hl as [[s0|e] Hl].
  - destruct r as [fs|e].
    + exists (Ok (s0 :: fs)). intros w. simpl.
      rewrite (bind_Ok _ _ _ _ _ (Hl w)). by rewrite (bind_Ok _ _ _ _ _ (IH w)).
    + exists (Raise e). intros w. simpl.
      rewrite (bind_Ok _ _ _ _ _ (Hl w)). by rewrite (bind_Raise _ _ _ _ _ (IH w)).
  - exists (Raise e). intros w. simpl. by rewrite (bind_Raise _ _ _ _ _ (Hl w)).
Qed.

(** The answer of the loop of [evaluate_cve] does not depend on what
    has been printed or asked before. *)
Lemma evaluate_refs_answer refs compiled w w0 :
  (evaluate_refs E refs compiled w).1 = (evaluate_refs E refs compiled w0).1.
Proof.
  revert w w0. induction refs as [|r refs IH]; intros w w0; [done|].
  destruct (startswith (url r) FIX_COMMIT_PREFIX) eqn:Hpre.
  - rewrite !evaluate_refs_fix by done. cbv zeta.
    destruct (git_show E (commit_of (url r))) as [q|e]; [|done].
    case_bool_decide; [apply IH|].
    destruct (affected_files_pure (bytes_splitlines (stdout q))) as [res Hres].
    rewrite !Hres. by destruct res.
  - rewrite !evaluate_refs_skip by done. apply IH.
Qed.

(** [applicable] is the answer of [evaluate_cve] in every world. *)
Lemma applicable_spec compiled cve w :
  applicable E compiled cve = true
  ↔ (evaluate_cve E cve compiled w).1 = Ok true.
Proof.
  unfold applicable, evaluate_cve.
  rewrite (evaluate_refs_answer _ _ w {| printed := []; queries := [] |}).
  by destruct (evaluate_refs E _ _ _).1 as [[|]|e].
Qed.

(** A loop that returns has had an answer for every record. *)
Lemma count_cves_evaluated cves compiled n w m w' cve :
  count_cves E cves compiled n w = (Ok m, w') →
  cve ∈ cves →
  ∃ verdict, ∀ w0, (evaluate_cve E cve compiled w0).1 = Ok verdict.
Proof.
  revert n w. induction cves as [|c cves IH]; intros n w Hrun Hin.
  - by apply elem_of_nil in Hin.
  - rewrite count_cves_cons in Hrun. cbv zeta in Hrun.
    destruct (evaluate_cve E c compiled _) as [[verdict|e] w2] eqn:Hc;
      [|done].
    apply elem_of_cons in Hin as [-> |Hin].
    + exists verdict. intros w0. unfold evaluate_cve in *.
      rewrite (evaluate_refs_answer _ _ w0
                 {| printed := printed w ++ [lit "Processing CVE: " ++ id c];
                    queries := queries w |}).
      by rewrite Hc.
    + destruct verdict; by eapply IH.
Qed.

Lemma count_cves_report cves compiled n w m w' :
  count_cves E cves compiled n w = (Ok m, w') →
  m = (n + length (List.filter (applicable E compiled) cves))%nat
  ∧ printed w' = printed w ++ mjoin (record_lines E compiled <$> cves).
Proof.
  revert n w. induction cves as [|cve cves IH]; intros n w.
  - intros [= <- <-]. simpl. split; [lia|by rewrite app_nil_r].
  - rewrite count_cves_cons. cbv zeta.
    set (w1 := {| printed := printed w ++ [lit "Processing CVE: " ++ id cve];
                  queries := queries w |}).
    pose proof (evaluate_cve_printed cve compiled w1) as Hp.
    pose proof (applicable_spec compiled cve w1) as Happ.
    unfold record_lines at 1. simpl.
    destruct (evaluate_cve E cve compiled w1) as [[[|]|e] w2]; [| |done];
      simpl in Hp, Happ.
    + rewrite (proj2 Happ eq_refl). simpl.
      intros [-> ->]%IH. simpl. rewrite Hp. unfold w1. simpl.
      split; [lia|]. by rewrite <- !app_assoc.
    + destruct (applicable E compiled cve) eqn:Ha;
        [by specialize (proj1 Happ eq_refl)|].
      intros [-> ->]%IH. rewrite Hp. unfold w1. simpl.
      split; [done|]. by rewrite <- !app_assoc.
Qed.

(** X17. When [main] returns after a feed answered with records, what it
    has printed is fixed by the verdicts of [evaluate_cve]: for each
    record in turn the line that announces it, followed by its
    identifier exactly when [evaluate_cve] answers true for it, and a
    last line with the number of records for which it answers true,
    which is at most the number of records. *)
Theorem main_report (w w' : world) (content : str) (response : Response)
    (cves : list Cve) :
  open_compiled_files E = Ok content →
  requests_get E = Ok response →
  status_code response = 200%Z →
  json_cves E (text response) = Ok cves →
  main E w = (Ok tt, w') →
  let compiled := load_compiled_files content in
  printed w' = printed w ++ report E compiled cves
  ∧ (∀ cve w0, applicable E compiled cve = true
               ↔ (evaluate_cve E cve compiled w0).1 = Ok true)
  ∧ (∀ cve, cve ∈ cves →
            ∃ verdict, ∀ w0, (evaluate_cve E cve compiled w0).1 = Ok verdict)
  ∧ (length (List.filter (applicable E compiled) cves) ≤ length cves)%nat.
Proof.
  intros Hopen Hget Hstatus Hjson. unfold main. run. rewrite Hopen.
  unfold fetch_cves. run. rewrite Hget, Hstatus. simpl. rewrite Hjson.
  destruct (count_cves E cves _ 0%nat w) as [[m|e] w1] eqn:Hc; [|done].
  unfold print. run. intros [= <-]. simpl. split_and!.
  - apply count_cves_report in Hc as [-> ->]. unfold report.
    by rewrite <- app_assoc.
  - intros cve w0. apply applicable_spec.
  - intros cve Hin. by eapply count_cves_evaluated.
  - apply List.filter_length_le.
Qed.

Lemma count_cves_empty cves n w m w' :
  count_cves E cves ∅ n w = (Ok m, w') → m = n.
Proof.
  revert n w. induction cves as [|cve cves IH]; intros n w.
  - by intros [= <- _].
  - rewrite count_cves_cons. cbv zeta.
    destruct (evaluate_cve E cve ∅ _) as [[[|]|e] w2] eqn:He; [| |done].
    + by apply evaluate_refs_empty in He.
    + apply IH.
Qed.

(** X18. With a compiled-file list that loads as the empty set, such as
    an empty file, a run of [main] that returns reports 0, whatever the
    feed and git answer. *)
Theorem main_no_compiled_files (w w' : world) (content : str) :
  open_compiled_files E = Ok content →
  load_compiled_files content = ∅ →
  main E w = (Ok tt, w') →
  last (printed w') = Some (lit "We care about 0 CVEs").
Proof.
  intros Hopen Hload. unfold main. run. rewrite Hopen, Hload.
  destruct (fetch_cves E w) as [[cves|e] w0]; [|done].
  destruct (count_cves E cves ∅ 0%nat w0) as [[m|e] w1] eqn:Hc; [|done].
  apply count_cves_empty in Hc as ->.
  unfold print. run. intros [= <-]. simpl. by rewrite last_snoc.
Qed.

Lemma affected_files_undecodable ls w :
  mapM utf8_decode ls = None →
  comprehension ls affected_file w = (Raise UnicodeDecodeError, w).
Proof.
  induction ls as [|l ls IH]; [done|]. intros Hnone.
  simpl. unfold mbind, M_bind, bind.
  destruct (utf8_decode l) as [s|] eqn:Hl.
  - assert (Hl' : affected_file l w = (Ok (strip s), w))
      by (unfold affected_file, decode; run; by rewrite Hl).
    rewrite Hl'. rewrite IH; [done|].
    simpl in Hnone. rewrite Hl in Hnone. simpl in Hnone.
    by destruct (mapM utf8_decode ls).
  - assert (Hl' : affected_file l w = (Raise UnicodeDecodeError, w))
      by (unfold affected_file, decode; run; by rewrite Hl).
    by rewrite Hl'.
Qed.

(** X19. Output that is not valid UTF-8 is not skipped: when the first
    fix-commit reference whose query exits with 0 printed a line that
    does not decode, evaluating the record raises [UnicodeDecodeError],
    and so does the loop of [main] when it reaches the record. *)
Theorem evaluate_cve_undecodable (name : str) (before : list Reference)
    (ref : Reference) (rest : list Reference) (compiled : gset str)
    (w : world) (p : CompletedProcess) (others : list Cve) (n : nat) :
  Forall (λ r, startswith (url r) FIX_COMMIT_PREFIX = true →
               ∃ q, git_show E (commit_of (url r)) = Ok q
                    ∧ returncode q ≠ 0%Z) before →
  startswith (url ref) FIX_COMMIT_PREFIX = true →
  git_show E (commit_of (url ref)) = Ok p →
  returncode p = 0%Z →
  mapM utf8_decode (bytes_splitlines (stdout p)) = None →
  let cve := {| id := name; references := before ++ ref :: rest |} in
  (evaluate_cve E cve compiled w).1 = Raise UnicodeDecodeError
  ∧ (count_cves E (cve :: others) compiled n w).1 = Raise UnicodeDecodeError.
Proof.
  intros Hbefore Hpre Hgit Hrc Hdec cve.
  assert (Heval : ∀ w0, (evaluate_cve E cve compiled w0).1
                        = Raise UnicodeDecodeError).
  { intros w0. unfold evaluate_cve, cve. simpl.
    destruct (evaluate_refs_pass_unresolvable E before (ref :: rest) compiled
                w0 Hbefore) as (qs & ->).
    rewrite evaluate_refs_fix by done. cbv zeta. rewrite Hgit, Hrc. simpl.
    by rewrite affected_files_undecodable. }
  split; [apply Heval|].
  rewrite count_cves_cons. cbv zeta.
  specialize (Heval {| printed := printed w ++ [lit "Processing CVE: " ++ id cve];
                       queries := queries w |}).
  destruct (evaluate_cve E cve compiled _) as [[[|]|e] w2]; simpl in *;
    congruence.
Qed.

End main_loop.

Section loading.
Import Py Normal process_cves.

(** X20. Every path of a loaded compiled-file set is in normal form: it
    is not empty and [normpath] leaves it as it is; an empty line is
    loaded as the path of the current directory. *)
Theorem load_compiled_files_normal (content q : str) :
  q ∈ load_compiled_files content → q ≠ [] ∧ normpath q = q.
Proof.
  unfold load_compiled_files.
  intros (line & -> & _)%elem_of_list_to_set%list_elem_of_fmap.
  split; [apply normpath_not_nil|apply normpath_idemp].
Qed.

Lemma universal_newlines_app (s t : str) :
  CR ∉ s → universal_newlines (s ++ t) = s ++ universal_newlines t.
Proof.
  induction s as [|c s IH]; intros Hs; [done|].
  apply not_elem_of_cons in Hs as [Hc Hs]. rewrite <- app_comm_cons.
  change (universal_newlines (c :: s ++ t))
    with (if c =? CR then
            LF :: match s ++ t with
                  | c' :: r' =>
                      if c' =? LF then universal_newlines r'
                      else universal_newlines (s ++ t)
                  | [] => universal_newlines (s ++ t)
                  end
          else c :: universal_newlines (s ++ t)).
  destruct (N.eqb_spec c CR) as [->|_]; [done|]. by rewrite IH.
Qed.

Lemma universal_newlines_crlf_lines (xs : list str) :
  Forall (λ s, CR ∉ s) xs →
  universal_newlines (mjoin ((λ s, s ++ [CR; LF]) <$> xs))
  = mjoin ((λ s, s ++ [LF]) <$> xs).
Proof.
  induction 1 as [|s xs Hs _ IH]; [done|].
  rewrite !fmap_cons.
  change (mjoin ((s ++ [CR; LF]) :: ((λ s, s ++ [CR; LF]) <$> xs)))
    with ((s ++ [CR; LF]) ++ mjoin ((λ s, s ++ [CR; LF]) <$> xs)).
  change (mjoin ((s ++ [LF]) :: ((λ s, s ++ [LF]) <$> xs)))
    with ((s ++ [LF]) ++ mjoin ((λ s, s ++ [LF]) <$> xs)).
  rewrite <- !app_assoc, universal_newlines_app by done.
  simpl. by rewrite IH.
Qed.

Lemma lines_stripped (xs : list str) :
  (λ f, normpath (strip f)) <$> ((λ s, s ++ [LF]) <$> xs)
  = (λ s, normpath (strip s)) <$> xs.
Proof.
  rewrite <- list_fmap_compose. apply list_fmap_ext. intros _ s _. simpl.
  by rewrite strip_line.
Qed.

(** X21. Line ends do not matter to loading: a file whose lines end in
    carriage return and line feed is loaded as the same set as the file
    whose lines end in a line feed, the set of the stripped and
    normalized lines. *)
Theorem load_compiled_files_crlf (xs : list str) :
  Forall (λ s, (LF ∉ s) ∧ (CR ∉ s)) xs →
  load_compiled_files (mjoin ((λ s, s ++ [CR; LF]) <$> xs))
  = list_to_set ((λ s, normpath (strip s)) <$> xs)
  ∧ load_compiled_files (mjoin ((λ s, s ++ [LF]) <$> xs))
    = list_to_set ((λ s, normpath (strip s)) <$> xs).
Proof.
  intros Hxs.
  assert (HLF : Forall (λ s, LF ∉ s) xs)
    by (apply (Forall_impl _ _ _ Hxs); by intros s [? _]).
  assert (HCR : Forall (λ s, CR ∉ s) xs)
    by (apply (Forall_impl _ _ _ Hxs); by intros s [_ ?]).
  unfold load_compiled_files, readlines. split.
  - rewrite universal_newlines_crlf_lines, keepends_lines by done.
    by rewrite lines_stripped.
  - rewrite universal_newlines_no_CR by by apply no_CR_in_lines.
    rewrite keepends_lines by done. by rewrite lines_stripped.
Qed.

(** X22. The commit handed to git is the last segment of the URL,
    trimmed: it holds no slash and has no whitespace at its ends. *)
Theorem commit_of_segment (u : str) :
  (SLASH ∉ commit_of u) ∧ strip (commit_of u) = commit_of u.
Proof.
  unfold commit_of. split; [|apply strip_idemp].
  intros Hin%elem_of_strip.
  destruct (last (split SLASH u)) as [x|] eqn:Hlast;
    [|by apply elem_of_nil in Hin].
  simpl in Hin. apply last_Some in Hlast as [l Hl].
  pose proof (split_no_sep SLASH u) as Hall. rewrite Hl in Hall.
  rewrite Forall_app, Forall_singleton in Hall. destruct Hall as [_ Hx].
  exact (Hx Hin).
Qed.

End loading.

Section more_runs.
Import Py Normal Effects Scenarios Runs.

Lemma normalize_source_path_under_build_root_witness :
  extract_sources.normalize_source_path (build_in_k [] [])
    (lit " /k/drivers/../a.c ") no_files
  = (Ok (lit "a.c"), no_files).
Proof.
  apply (normalize_source_path_under_build_root (build_in_k [] [])
           (lit " /k/drivers/../a.c ") (lit "drivers/../a.c") no_files).
  by vm_compute.
Defined.

Lemma normalize_source_path_padded_witness :
  extract_sources.normalize_source_path (build_in_k [] [])
    (lit "  " ++ lit "/k/a.c" ++ [LF]) no_files
  = extract_sources.normalize_source_path (build_in_k [] [])
      (lit "/k/a.c") no_files.
Proof.
  apply (normalize_source_path_padded (build_in_k [] [])
           (lit "  ") (lit "/k/a.c") [LF] no_files);
    by repeat constructor.
Defined.

Lemma extract_sources_elem_of_witness :
  ∃ w', extract_sources.extract_sources two_artifacts no_files
        = (Ok [lit "a.c"], w')
        ∧ (lit "<built-in>" ∈ [lit "a.c"]
           ↔ extract_sources.kept (lit "<built-in>") = true
             ∧ ∃ binary p output raw w0 w1,
                 binary ∈ extract_sources.binaries two_artifacts
                 ∧ extract_sources.llvm_dwarfdump two_artifacts binary = Ok p
                 ∧ decode (stdout p) = Ok output
                 ∧ raw ∈ splitlines (strip output)
                 ∧ extract_sources.normalize_source_path two_artifacts raw w0
                   = (Ok (lit "<built-in>"), w1)).
Proof.
  eexists. split; [by vm_compute|].
  eapply (extract_sources_elem_of two_artifacts no_files). by vm_compute.
Defined.

Lemma extract_sources_no_linebreak_witness :
  ∃ w', extract_sources.extract_sources two_artifacts no_files
        = (Ok [lit "a.c"], w')
        ∧ Forall (Forall (λ c, is_linebreak c = false)) [lit "a.c"].
Proof.
  eexists. split; [by vm_compute|].
  eapply (extract_sources_no_linebreak two_artifacts no_files). by vm_compute.
Defined.

Lemma write_sources_file_witness :
  ∃ w', extract_sources.write_sources (build_in_k [] []) 0%nat (lit "out")
          (one_list ["b.c"; "a.c"]) = (Ok tt, w')
        ∧ extract_sources.files w'
          = <[lit "/k/out/sources.txt" := lit "a.c" ++ [LF] ++ lit "b.c" ++ [LF]]>
              (extract_sources.files (one_list ["b.c"; "a.c"])).
Proof.
  apply (write_sources_file (build_in_k [] []) 0%nat (lit "out")
           (one_list ["b.c"; "a.c"]) [lit "b.c"; lit "a.c"]
           [lit "a.c"; lit "b.c"]); try by vm_compute.
  - apply Permutation_swap.
  - repeat constructor; by vm_compute.
Defined.

Lemma write_sources_order_irrelevant_witness :
  extract_sources.files
    (extract_sources.write_sources (build_in_k [] []) 0%nat (lit "out")
       (one_list ["b.c"; "a.c"])).2
  = extract_sources.files
      (extract_sources.write_sources (build_in_k [] []) 0%nat (lit "out")
         (one_list ["a.c"; "b.c"])).2.
Proof.
  apply (write_sources_order_irrelevant (build_in_k [] []) 0%nat (lit "out")
           (one_list ["b.c"; "a.c"]) (one_list ["a.c"; "b.c"])
           [lit "b.c"; lit "a.c"] [lit "a.c"; lit "b.c"]);
    try by vm_compute.
  apply Permutation_swap.
Defined.

Lemma main_failure_files_witness :
  ∃ w', extract_sources.main disk_full to_out earlier_output
        = (Raise (SystemExit 0), w')
        ∧ extract_sources.files w'
          = <[extract_sources.output_file_in disk_full (lit "out")
              := take 0 (print_lines (sort [lit "a.c"]))]>
              (extract_sources.files earlier_output).
Proof.
  destruct (extract_sources.extract_sources disk_full earlier_output)
    as [r w1] eqn:Hrun.
  assert (Hr : r = Ok [lit "a.c"])
    by (change r with (r, w1).1; rewrite <- Hrun; by vm_compute).
  subst r.
  destruct (main_failure_files disk_full to_out earlier_output earlier_output
              eq_refl) as (_ & Hcut & _).
  exact (Hcut [lit "a.c"] w1 0%nat Hrun eq_refl eq_refl eq_refl).
Defined.

Lemma main_writes_sorted_sources_witness :
  ∃ w', extract_sources.main two_artifacts to_out no_files = (Ok tt, w')
        ∧ extract_sources.files w'
          = <[extract_sources.output_file_in two_artifacts (lit "out")
              := print_lines (sort [lit "a.c"])]>
              (extract_sources.files no_files).
Proof.
  destruct (extract_sources.extract_sources two_artifacts no_files)
    as [r w1] eqn:Hrun.
  assert (Hr : r = Ok [lit "a.c"])
    by (change r with (r, w1).1; rewrite <- Hrun; by vm_compute).
  subst r.
  destruct (main_writes_sorted_sources two_artifacts to_out no_files no_files
              w1 [lit "a.c"] eq_refl Hrun eq_refl eq_refl)
    as (w' & Hmain & Hfiles & _).
  exists w'. split; [exact Hmain|exact Hfiles].
Defined.

Lemma extracted_sources_read_back_witness :
  process_cves.load_compiled_files (print_lines (sort [lit "a.c"]))
  = list_to_set [lit "a.c"].
Proof.
  destruct (extract_sources.extract_sources two_artifacts no_files)
    as [r w1] eqn:Hrun.
  assert (Hr : r = Ok [lit "a.c"])
    by (change r with (r, w1).1; rewrite <- Hrun; by vm_compute).
  subst r.
  apply (extracted_sources_read_back two_artifacts no_files [lit "a.c"] w1);
    [done|done|]. by repeat constructor.
Defined.

Lemma evaluate_cve_ignores_later_references_witness :
  process_cves.evaluate_cve (checkout ["a.c"]) bad_then_good
    {[ lit "a.c" ]} quiet
  = process_cves.evaluate_cve (checkout ["a.c"])
      (cve_with "CVE-M" ["https://example.org/advisory";
                         "https://git.kernel.org/stable/c/bad";
                         "https://git.kernel.org/stable/c/good"])
      {[ lit "a.c" ]} quiet.
Proof.
  apply (evaluate_cve_ignores_later_references (checkout ["a.c"])
           (lit "CVE-M")
           [ {| process_cves.url := lit "https://example.org/advisory" |};
             {| process_cves.url := lit "https://git.kernel.org/stable/c/bad" |} ]
           {| process_cves.url := lit "https://git.kernel.org/stable/c/good" |}
           [ {| process_cves.url := lit "https://git.kernel.org/stable/c/other" |} ]
           [] {[ lit "a.c" ]} quiet
           {| returncode := 0; stdout := ascii_bytes "a.c" ++ [x0a] |});
    done.
Defined.

Lemma evaluate_cve_all_unresolvable_witness :
  process_cves.evaluate_cve (checkout ["a.c"])
    (cve_with "CVE-U" ["https://git.kernel.org/stable/c/bad";
                       "https://example.org/advisory";
                       "https://git.kernel.org/stable/c/worse"])
    {[ lit "a.c" ]} quiet
  = (Ok false, {| process_cves.printed := [];
                  process_cves.queries := [lit "bad"; lit "worse"] |}).
Proof.
  apply (evaluate_cve_all_unresolvable (checkout ["a.c"])
           (cve_with "CVE-U" ["https://git.kernel.org/stable/c/bad";
                              "https://example.org/advisory";
                              "https://git.kernel.org/stable/c/worse"])
           {[ lit "a.c" ]} quiet).
  apply Forall_cons. split.
  { intros _. by exists {| returncode := 128; stdout := [] |}. }
  apply Forall_cons. split.
  { intros H. by vm_compute in H. }
  apply Forall_cons. split; [|constructor].
  intros _. by exists {| returncode := 1; stdout := [] |}.
Defined.

Lemma evaluate_cve_monotone_witness :
  process_cves.evaluate_cve (checkout ["a.c"]) bad_then_good
    {[ lit "a.c"; lit "b.c" ]} quiet
  = (Ok true, {| process_cves.printed := [];
                 process_cves.queries := [lit "bad"; lit "good"] |}).
Proof.
  apply (evaluate_cve_monotone (checkout ["a.c"]) bad_then_good
           {[ lit "a.c" ]} {[ lit "a.c"; lit "b.c" ]} quiet).
  - set_solver.
  - by vm_compute.
Defined.

Lemma main_report_witness :
  ∃ w', process_cves.main (checkout ["a.c"]) quiet = (Ok tt, w')
        ∧ process_cves.printed w'
          = [lit "Processing CVE: CVE-M"; lit "CVE-M";
             lit "We care about 1 CVEs"].
Proof.
  destruct (process_cves.main (checkout ["a.c"]) quiet) as [r w'] eqn:Hrun.
  assert (Hr : r = Ok tt)
    by (change r with (r, w').1; rewrite <- Hrun; by vm_compute).
  subst r. exists w'. split; [done|].
  destruct (main_report (checkout ["a.c"]) quiet w' (text_of ["a.c"])
              {| process_cves.status_code := 200; process_cves.text := [] |}
              [bad_then_good] eq_refl eq_refl eq_refl eq_refl Hrun)
    as (Hprinted & _).
  rewrite Hprinted. by vm_compute.
Defined.

Lemma main_no_compiled_files_witness :
  ∃ w', process_cves.main (checkout []) quiet = (Ok tt, w')
        ∧ last (process_cves.printed w')
          = Some (lit "We care about 0 CVEs").
Proof.
  eexists. split; [by vm_compute|].
  eapply (main_no_compiled_files (checkout []) quiet _ []); by vm_compute.
Defined.

Lemma main_build_failure_witness :
  extract_sources.main broken_config with_build no_files
  = (Raise (SystemExit 0),
     extract_sources.add_log extract_sources.ERROR (lit "None") no_files).
Proof.
  apply (main_build_failure broken_config with_build no_files no_files
           (CalledProcessError 2)); done.
Defined.

Lemma evaluate_cve_undecodable_witness :
  (process_cves.evaluate_cve (checkout ["a.c"])
     (cve_with "CVE-R" ["https://git.kernel.org/stable/c/bad";
                        "https://git.kernel.org/stable/c/raw"])
     {[ lit "a.c" ]} quiet).1
  = Raise UnicodeDecodeError.
Proof.
  apply (evaluate_cve_undecodable (checkout ["a.c"]) (lit "CVE-R")
           [ {| process_cves.url := lit "https://git.kernel.org/stable/c/bad" |} ]
           {| process_cves.url := lit "https://git.kernel.org/stable/c/raw" |}
           [] {[ lit "a.c" ]} quiet
           {| returncode := 0; stdout := [xff; x0a] |} [] 0%nat); try done.
  repeat constructor. intros _.
  by exists {| returncode := 128; stdout := [] |}.
Defined.

Lemma load_compiled_files_normal_witness :
  lit "a/b.c" ≠ [] ∧ normpath (lit "a/b.c") = lit "a/b.c".
Proof.
  apply (load_compiled_files_normal (lit " a//./b.c" ++ [LF]) (lit "a/b.c")).
  apply (bool_decide_unpack _). by vm_compute.
Defined.

Lemma load_compiled_files_crlf_witness :
  process_cves.load_compiled_files
    (mjoin ((λ s, s ++ [CR; LF]) <$> [lit "a.c"; lit "b.c"]))
  = list_to_set ((λ s, normpath (strip s)) <$> [lit "a.c"; lit "b.c"]).
Proof.
  apply (load_compiled_files_crlf [lit "a.c"; lit "b.c"]).
  repeat constructor; apply (bool_decide_unpack _); by vm_compute.
Defined.

End more_runs.
